(** * Three command-line utilities

    A shallow embedding of
    - [git-fix-commits.py]  (commit-message corrector),
    - [monthly-activity.py] (timeline summarizer),
    - [music-diff.py]       (folder differ),
    followed by the properties of the specification that were checked
    against it.

    Conventions.  A Python [str] is a [string]; the model is exact on
    messages made of code points below 128 (larger bytes are carried
    along as uncased characters that are neither blank nor part of a
    word).  A [dict] is a [gmap] or, where only insertion order matters,
    a list of pairs; a [set] is a [gset] or, for the constant word lists
    that are only tested for membership, a list.  A Python [float] is a
    binary64 [float].  External libraries and the operating system
    (language detection, the spelling dictionary, console input, git,
    the file system) are parameters or explicit state. *)

From Stdlib Require Import Ascii Floats.
From stdpp Require Import base option list strings gmap sets.

(** ** Python string operations *)

Module PyStr.

Definition code (c : ascii) : nat := nat_of_ascii c.

Definition between (lo hi : nat) (c : ascii) : bool :=
  (lo <=? code c) && (code c <=? hi).

(** [c.isspace()]: what [str.split()] and [str.strip()] treat as blank. *)
Definition isspace (c : ascii) : bool :=
  between 9 13 c || between 28 32 c.

Definition isupper_char (c : ascii) : bool := between 65 90 c.
Definition islower_char (c : ascii) : bool := between 97 122 c.
Definition isdigit_char (c : ascii) : bool := between 48 57 c.

Definition lower_char (c : ascii) : ascii :=
  if isupper_char c then ascii_of_nat (code c + 32) else c.

Definition upper_char (c : ascii) : ascii :=
  if islower_char c then ascii_of_nat (code c - 32) else c.

(** [s.lower()], [s.upper()] *)
Fixpoint lower (s : string) : string :=
  match s with
  | EmptyString => EmptyString
  | String c s' => String (lower_char c) (lower s')
  end.

Fixpoint upper (s : string) : string :=
  match s with
  | EmptyString => EmptyString
  | String c s' => String (upper_char c) (upper s')
  end.

(** [s.capitalize()]: first character upper-cased, the rest lower-cased. *)
Definition capitalize (s : string) : string :=
  match s with
  | EmptyString => EmptyString
  | String c s' => String (upper_char c) (lower s')
  end.

Fixpoint any_char (p : ascii → bool) (s : string) : bool :=
  match s with
  | EmptyString => false
  | String c s' => p c || any_char p s'
  end.

(** [s.isupper()]: there is a cased character and no cased character is
    lower case. *)
Definition isupper (s : string) : bool :=
  any_char isupper_char s && negb (any_char islower_char s).

(** [s[0].isupper()] and [s[0].islower()]; on the empty string Python
    raises [IndexError], every call site below has a non-empty [s]. *)
Definition first_isupper (s : string) : bool :=
  match s with
  | EmptyString => false
  | String c _ => isupper_char c
  end.

Definition first_islower (s : string) : bool :=
  match s with
  | EmptyString => false
  | String c _ => islower_char c
  end.

(** [s[0].upper() + s[1:]] *)
Definition upper_first (s : string) : string :=
  match s with
  | EmptyString => EmptyString
  | String c s' => String (upper_char c) s'
  end.

(** [c in s] for a character [c]. *)
Definition has_char (c : ascii) (s : string) : bool :=
  any_char (Ascii.eqb c) s.

Definition starts_blank (s : string) : bool :=
  match s with
  | EmptyString => true
  | String c _ => isspace c
  end.

(** [s.split()]: the maximal runs of non-blank characters. *)
Fixpoint split (s : string) : list string :=
  match s with
  | EmptyString => []
  | String c s' =>
      if isspace c then split s'
      else if starts_blank s' then String c EmptyString :: split s'
      else match split s' with
           | w :: ws => String c w :: ws
           | [] => [String c EmptyString]
           end
  end.

(** [sep.join(l)] *)
Fixpoint join (sep : string) (l : list string) : string :=
  match l with
  | [] => EmptyString
  | [w] => w
  | w :: ws => w +:+ sep +:+ join sep ws
  end.

(** Stripping: the characters satisfying [p] are removed from the left
    end, the right end, or both. *)
Fixpoint lstrip_by (p : ascii → bool) (s : string) : string :=
  match s with
  | EmptyString => EmptyString
  | String c s' => if p c then lstrip_by p s' else s
  end.

Fixpoint rstrip_by (p : ascii → bool) (s : string) : string :=
  match s with
  | EmptyString => EmptyString
  | String c s' =>
      match rstrip_by p s' with
      | EmptyString => if p c then EmptyString else String c EmptyString
      | r => String c r
      end
  end.

(** [s.strip(chars)] *)
Definition strip (chars : string) (s : string) : string :=
  rstrip_by (λ c, has_char c chars) (lstrip_by (λ c, has_char c chars) s).

(** [s.strip()] *)
Definition strip_blank (s : string) : string :=
  rstrip_by isspace (lstrip_by isspace s).

(** [s[:n]] and [s[n:]] *)
Fixpoint take (n : nat) (s : string) : string :=
  match n, s with
  | S n', String c s' => String c (take n' s')
  | _, _ => EmptyString
  end.

Fixpoint drop (n : nat) (s : string) : string :=
  match n, s with
  | S n', String _ s' => drop n' s'
  | _, _ => s
  end.

(** [s.startswith(p)] *)
Fixpoint startswith (p s : string) : bool :=
  match p, s with
  | EmptyString, _ => true
  | String a p', String b s' => Ascii.eqb a b && startswith p' s'
  | String _ _, EmptyString => false
  end.

(** [s.replace(old, new)]: the non-overlapping occurrences of [old], from
    the left.  [skip] counts the characters of an occurrence still to be
    dropped. *)
Fixpoint replace_go (old new : string) (skip : nat) (s : string) : string :=
  match s with
  | EmptyString => EmptyString
  | String c s' =>
      match skip with
      | S k => replace_go old new k s'
      | O =>
          if startswith old s
          then new +:+ replace_go old new (String.length old - 1) s'
          else String c (replace_go old new 0 s')
      end
  end.

Fixpoint intersperse (new : string) (s : string) : string :=
  match s with
  | EmptyString => new
  | String c s' => new +:+ String c (intersperse new s')
  end.

Definition replace (old new : string) (s : string) : string :=
  match old with
  | EmptyString => intersperse new s
  | _ => replace_go old new 0 s
  end.

End PyStr.

(** ** The fragment of Python's [re] the corrector uses

    Patterns are sequences of literal characters and [\b]; matching is
    done with [re.IGNORECASE]. *)

Module PyRe.
Import PyStr.

Inductive atom : Type :=
| WordBoundary
| Lit (c : ascii).

(** A raw pattern string as the source writes it: [\b] is the word
    boundary, every other character stands for itself. *)
Fixpoint compile (p : string) : list atom :=
  match p with
  | EmptyString => []
  | String c p' =>
      match p' with
      | String d p'' =>
          if Ascii.eqb c "\" && Ascii.eqb d "b"
          then WordBoundary :: compile p''
          else Lit c :: compile p'
      | EmptyString => [Lit c]
      end
  end.

(** [\w] *)
Definition is_word_char (c : ascii) : bool :=
  isupper_char c || islower_char c || isdigit_char c || Ascii.eqb c "_".

Definition is_word (o : option ascii) : bool :=
  match o with
  | Some c => is_word_char c
  | None => false
  end.

Definition first_char (s : string) : option ascii :=
  match s with
  | EmptyString => None
  | String c _ => Some c
  end.

(** Two characters are the same up to case. *)
Definition same_char (c d : ascii) : bool :=
  Ascii.eqb (lower_char c) (lower_char d).

(** The pattern matches at the start of [s], where [prev] is the
    character before [s]; the result is the length of the match. *)
Fixpoint match_here (prev : option ascii) (re : list atom) (s : string) : option nat :=
  match re with
  | [] => Some 0
  | WordBoundary :: re' =>
      if xorb (is_word prev) (is_word (first_char s))
      then match_here prev re' s
      else None
  | Lit c :: re' =>
      match s with
      | String d s' =>
          if same_char c d then S <$> match_here (Some d) re' s' else None
      | EmptyString => None
      end
  end.

Fixpoint search_go (prev : option ascii) (re : list atom) (s : string) : option (nat * nat) :=
  match match_here prev re s with
  | Some n => Some (0, n)
  | None =>
      match s with
      | EmptyString => None
      | String c s' =>
          match search_go (Some c) re s' with
          | Some (i, n) => Some (S i, n)
          | None => None
          end
      end
  end.

(** [re.search(pattern, s, flags=re.IGNORECASE)]: start and length of the
    leftmost match. *)
Definition search (pattern : string) (s : string) : option (nat * nat) :=
  search_go None (compile pattern) s.

(** [match.group()] *)
Definition group (s : string) (m : nat * nat) : string :=
  take m.2 (drop m.1 s).

(** [re.sub(pattern, repl, s, flags=re.IGNORECASE, count=1)] for a
    replacement without backslashes. *)
Definition sub1 (pattern repl : string) (s : string) : string :=
  match search pattern s with
  | Some (i, n) => take i s +:+ repl +:+ drop (i + n) s
  | None => s
  end.

End PyRe.

(** ** Programs at the console

    A program reads lines from standard input and leaves a trace of
    events; it returns, raises an exception that nothing catches, or
    leaves through [sys.exit]. *)

Module Console.

Inductive exn : Type :=
| EOFError
| FileNotFoundError
| KeyError (key : string)
| TypeError
| ValueError (text : string).

Inductive result (A : Type) : Type :=
| Done (a : A) (stdin : list string)
| Raised (e : exn)
| Exited (code : nat).
Arguments Done {A} a stdin.
Arguments Raised {A} e.
Arguments Exited {A} code.

Definition M (E A : Type) : Type := list string → list E * result A.

Definition ret {E A} (a : A) : M E A := λ stdin, ([], Done a stdin).

Definition bind {E A B} (m : M E A) (k : A → M E B) : M E B :=
  λ stdin,
    match m stdin with
    | (out, Done a stdin') => let '(out', r) := k a stdin' in (out ++ out', r)
    | (out, Raised e) => (out, Raised e)
    | (out, Exited code) => (out, Exited code)
    end.

(** [print(...)], [input(...)], [sys.exit(code)] *)
Definition print {E} (e : E) : M E unit := λ stdin, ([e], Done () stdin).

Definition input {E} : M E string :=
  λ stdin,
    match stdin with
    | line :: rest => ([], Done line rest)
    | [] => ([], Raised EOFError)
    end.

Definition sys_exit {E A} (code : nat) : M E A := λ _, ([], Exited code).

Definition raise {E A} (e : exn) : M E A := λ _, ([], Raised e).


#[global] Instance M_ret {E} : MRet (M E) := λ A a, ret a.
#[global] Instance M_bind {E} : MBind (M E) := λ A B k m, bind m k.

(** A computation without console that may raise. *)
Definition fallible (A : Type) : Type := exn + A.

#[global] Instance fallible_ret : MRet fallible := λ A a, inr a.
#[global] Instance fallible_bind : MBind fallible :=
  λ A B k m, match m with inl e => inl e | inr a => k a end.

End Console.

(** ** git-fix-commits.py: the message corrector *)

Module FixCommits.
Import PyStr PyRe Console.

Inductive lang : Type := En | De.

(** What the corrector uses of a [SpellChecker]: [w in spell] and
    [spell.correction(w)] ([None] when there is no candidate). *)
Record SpellChecker : Type := {
  known : string → bool;
  correction : string → option string
}.

Definition phrase_corrections_en : list (string * string) :=
  [ ("\bbachelor thesis\b", "bachelor's thesis");
    ("\bmaster thesis\b", "master's thesis");
    ("\bbachelor theses\b", "bachelor's theses");
    ("\bmaster theses\b", "master's theses");
    ("\bdoctor thesis\b", "doctoral thesis") ].

Definition phrase_corrections_de : list (string * string) :=
  [ ("\bBachelor Thesis\b", "Bachelorarbeit");
    ("\bMaster Thesis\b", "Masterarbeit");
    ("\bbachelor thesis\b", "Bachelorarbeit");
    ("\bmaster thesis\b", "Masterarbeit") ].

Definition phrase_corrections (l : lang) : list (string * string) :=
  match l with
  | De => phrase_corrections_de
  | En => phrase_corrections_en
  end.

Definition lowercase_words_en : list string :=
  [ "insights"; "script"; "scripts"; "file"; "files"; "function"; "functions";
    "method"; "methods"; "class"; "classes"; "module"; "modules"; "package";
    "packages"; "library"; "libraries"; "framework"; "tool"; "tools"; "code";
    "documentation"; "readme"; "license"; "configuration"; "settings"; "options";
    "feature"; "features"; "bug"; "bugs"; "issue"; "issues"; "test"; "tests";
    "database"; "server"; "client"; "api"; "interface"; "component"; "components";
    "service"; "services"; "application"; "applications"; "system"; "systems";
    "version"; "release"; "update"; "updates"; "change"; "changes"; "fix"; "fixes";
    "refactor"; "refactoring"; "optimization"; "performance"; "security"; "style";
    "formatting"; "dependency"; "dependencies"; "build"; "deployment"; "testing";
    "implementation"; "design"; "architecture"; "structure"; "logic"; "algorithm";
    "data"; "model"; "models"; "view"; "views"; "controller"; "controllers";
    "repository"; "repositories"; "folder"; "folders"; "directory"; "directories";
    "thesis"; "theses"; "references"; "reference"; "education"; "subject" ].

Definition capitalized_nouns_de : list string :=
  [ "datei"; "dateien"; "ordner"; "verzeichnis"; "verzeichnisse"; "funktion";
    "funktionen"; "methode"; "methoden"; "klasse"; "klassen"; "modul"; "module";
    "paket"; "pakete"; "bibliothek"; "bibliotheken"; "werkzeug"; "werkzeuge";
    "code"; "dokumentation"; "konfiguration"; "einstellungen"; "optionen";
    "feature"; "features"; "fehler"; "problem"; "probleme"; "test"; "tests";
    "datenbank"; "server"; "client"; "schnittstelle"; "komponente"; "komponenten";
    "dienst"; "dienste"; "anwendung"; "anwendungen"; "system"; "systeme";
    "version"; "release"; "aktualisierung"; "änderung"; "änderungen"; "bugfix";
    "refactoring"; "optimierung"; "performance"; "sicherheit"; "stil"; "formatierung";
    "abhängigkeit"; "abhängigkeiten"; "build"; "deployment"; "implementierung";
    "design"; "architektur"; "struktur"; "logik"; "algorithmus"; "daten";
    "modell"; "modelle"; "ansicht"; "ansichten"; "controller"; "repository";
    "repositories"; "verzeichnis"; "thesis"; "arbeit"; "abschlussarbeit";
    "bachelorarbeit"; "masterarbeit"; "referenzen"; "referenz"; "bildung";
    "ausbildung"; "studium"; "fach"; "fächer"; "einblick"; "einblicke";
    "skript"; "skripte"; "stärke"; "stärken"; "lebenslauf"; "readme";
    "insights"; "script" ].

Definition always_capitalized : list string :=
  [ "python"; "java"; "javascript"; "typescript"; "github"; "gitlab"; "docker";
    "kubernetes"; "react"; "vue"; "angular"; "node"; "sql"; "html"; "css";
    "json"; "xml"; "yaml"; "api"; "rest"; "graphql"; "aws"; "azure"; "gcp";
    "linux"; "windows"; "macos"; "android"; "ios"; "git"; "npm"; "yarn";
    "webpack"; "babel"; "eslint"; "prettier"; "jest"; "mocha"; "redux";
    "mongodb"; "postgresql"; "mysql"; "redis"; "elasticsearch"; "kafka";
    "jenkins"; "travis"; "circleci"; "heroku"; "netlify"; "vercel";
    "gallup" ].

(** [w in words] for one of the constant word sets. *)
Definition mem (w : string) (words : list string) : bool :=
  bool_decide (w ∈ words).

(** ['/', ':', '@', '#', '_', '-'] *)
Definition special_chars : string := "/:@#_-".

(** [any(c in word for c in special_chars)] *)
Definition has_special (word : string) : bool :=
  any_char (λ c, has_char c word) special_chars.

(** The argument of [word.strip]: the marks . , ! ? ; : the double quote
    (code 34), the apostrophe and the brackets ( ) [ ] { }. *)
Definition punctuation : string :=
  ".,!?;:" +:+ String (ascii_of_nat 34) "'()[]{}".

(** The replacement as it is substituted for [matched_text]. *)
Definition adjust_case (l : lang) (matched_text replacement : string) : string :=
  match l with
  | De => if first_isupper matched_text then upper_first replacement else replacement
  | En => if first_isupper matched_text then upper_first replacement else replacement
  end.

(** One turn of the loop over [phrase_corrections.items()]. *)
Definition apply_phrase (l : lang) (corrected : string) (entry : string * string) : string :=
  let '(pattern, replacement) := entry in
  match search pattern corrected with
  | Some m => sub1 pattern (adjust_case l (group corrected m) replacement) corrected
  | None => corrected
  end.

Definition apply_phrases (l : lang) (message : string) : string :=
  fold_left (apply_phrase l) (phrase_corrections l) message.

(** The spelling branch: the correction with its capitalization, or
    [None] when the word is kept. *)
Definition spelling (l : lang) (spell : SpellChecker) (i : nat) (clean_word : string)
    : option string :=
  if known spell (lower clean_word) then None
  else
    match correction spell (lower clean_word) with
    | Some c =>
        if negb (String.eqb c EmptyString) && negb (String.eqb c (lower clean_word))
        then Some
          match l with
          | De =>
              if (0 <? i) && first_isupper c then capitalize c
              else if first_isupper clean_word then capitalize c
              else lower c
          | En =>
              if first_isupper clean_word && (0 <? i) then lower c
              else if first_isupper clean_word then capitalize c
              else c
          end
        else None
    | None => None
    end.

(** The body of the loop over [enumerate(words)]: the word appended to
    [corrected_words] for [word] at index [i]. *)
Definition process_word (l : lang) (spell : SpellChecker) (i : nat) (word : string) : string :=
  if has_special word then word
  else if isupper word && (1 <? String.length word) then word
  else
    let clean_word := strip punctuation word in
    if String.eqb clean_word EmptyString then word
    else if i =? 0 then
      if first_islower clean_word
      then replace clean_word (capitalize clean_word) word
      else word
    else
      let proper (_ : unit) :=
        if mem (lower clean_word) always_capitalized then
          let proper_case := capitalize (lower clean_word) in
          if negb (String.eqb clean_word proper_case)
          then replace clean_word proper_case word
          else word
        else
          match spelling l spell i clean_word with
          | Some c => replace clean_word c word
          | None => word
          end in
      match l with
      | De =>
          if mem (lower clean_word) capitalized_nouns_de then
            if first_islower clean_word
            then replace clean_word (capitalize clean_word) word
            else word
          else proper ()
      | En =>
          if mem (lower clean_word) lowercase_words_en && first_isupper clean_word then
            if negb (mem (lower clean_word) always_capitalized)
            then replace clean_word (lower clean_word) word
            else word
          else proper ()
      end.

(** [spell_de if lang == 'de' else spell_en] *)
Definition spell_for (l : lang) (spell_en spell_de : SpellChecker) : SpellChecker :=
  match l with
  | De => spell_de
  | En => spell_en
  end.

Section Corrector.

(** [langdetect.detect]; [None] stands for any exception it raises. *)
Variable langdetect_detect : string → option string.

Definition detect_language (text : string) : lang :=
  match langdetect_detect text with
  | Some l => if String.eqb l "de" then De else En
  | None => En
  end.

Definition spell_check_message (message : string) (spell_en spell_de : SpellChecker) : string :=
  let l := detect_language message in
  let spell := spell_for l spell_en spell_de in
  let corrected := apply_phrases l message in
  let words := split corrected in
  join " " (imap (process_word l spell) words).

(** [preview_changes]: the commits whose message the corrector changes. *)
Definition preview_changes (commits : list (string * string))
    (spell_en spell_de : SpellChecker) : list (string * string * string) :=
  omap (λ '(commit_hash, message),
          let corrected := spell_check_message message spell_en spell_de in
          if String.eqb corrected message then None
          else Some (commit_hash, message, corrected)) commits.

End Corrector.

(** *** Interactive review and history rewrite *)

(** A repository as the tool sees it: whether [git status --porcelain]
    is empty, the commits of [git log] oldest first (hash, subject), and
    whether [git filter-branch] will return 0. *)
Record Repo : Type := {
  repo_name : string;
  clean : bool;
  commits : list (string * string);
  filter_branch_ok : bool
}.

(** An entry of [changes]: (commit hash, old message, new message). *)
Abbreviation change := (string * string * string)%type.

Inductive action : Type := accept | skip | edit | abort.

Inductive status : Type :=
| corrected (changes : nat)
| is_clean
| skipped (reason : string).

(** The status lines and the git call a run leaves behind. *)
Inductive event : Type :=
| Usage
| Path_does_not_exist (p : string)
| No_repositories_found
| Found_repositories (names : list string)
| Repository (name : string)
| Dirty_working_tree
| No_commits_found
| Found_commits (n : nat)
| No_spelling_errors
| Found_corrections (n : nat)
| Aborted_by_user
| Will_change (new_message : string)
| Keeping_original (original : string)
| No_changes_to_apply
| Summary (commit_changes : list change)
| Aborted
| Rewriting
| Filter_branch (repo : string) (commit_changes : list change)
| Filter_branch_error
| Rewritten
| Failed_to_rewrite
| Final_summary (results : list (string * status)).

Definition is_yes (s : string) : bool := String.eqb s "y" || String.eqb s "yes".

(** [get_user_choice_for_commit]: the prompt loop, on the lines still to
    be read; its prompts are not recorded.  Every turn reads a line, so
    the loop ends with the input at the latest ([EOFError]). *)
Fixpoint get_user_choice_for_commit (original suggested : string) (stdin : list string)
    : result (action * string) :=
  match stdin with
  | [] => Raised EOFError
  | line :: rest =>
      let choice := lower (strip_blank line) in
      if is_yes choice then Done (accept, suggested) rest
      else if String.eqb choice "s" || String.eqb choice "skip" then Done (skip, original) rest
      else if String.eqb choice "e" || String.eqb choice "edit" then
        match rest with
        | [] => Raised EOFError
        | line2 :: rest2 =>
            let new_message := strip_blank line2 in
            if negb (String.eqb new_message EmptyString) then
              match rest2 with
              | [] => Raised EOFError
              | line3 :: rest3 =>
                  if is_yes (lower (strip_blank line3))
                  then Done (accept, new_message) rest3
                  else get_user_choice_for_commit original suggested rest3
              end
            else get_user_choice_for_commit original suggested rest2
        end
      else if String.eqb choice "a" || String.eqb choice "abort" then Done (abort, original) rest
      else get_user_choice_for_commit original suggested rest
  end.

(** The message filter the generated shell script implements: the first
    [case] branch whose pattern is the message. *)
Fixpoint msg_filter (commit_changes : list change) (msg : string) : string :=
  match commit_changes with
  | [] => msg
  | (_, old_msg, new_msg) :: rest =>
      if String.eqb old_msg msg then new_msg else msg_filter rest msg
  end.

(** [rewrite_commits_with_script]: runs [git filter-branch] with the
    filter over all refs. *)
Definition rewrite_commits_with_script (repo : Repo) (commit_changes : list change)
    : M event (bool * Repo) :=
  print (Filter_branch (repo_name repo) commit_changes);;
  if filter_branch_ok repo then
    mret (true, {| repo_name := repo_name repo;
                   clean := clean repo;
                   commits := prod_map id (msg_filter commit_changes) <$> commits repo;
                   filter_branch_ok := filter_branch_ok repo |})
  else
    print Filter_branch_error;;
    mret (false, repo).

(** The loop of [rewrite_history] over [changes]; [None] when the user
    aborts (the function then returns [False]). *)
Fixpoint review (changes : list change) (commit_changes : list change)
    : M event (option (list change)) :=
  match changes with
  | [] => mret (Some commit_changes)
  | (commit_hash, original, suggested) :: changes' =>
      '(act, new_message) ← (λ stdin, ([], get_user_choice_for_commit original suggested stdin));
      match act with
      | abort => print Aborted_by_user;; mret None
      | accept =>
          if negb (String.eqb new_message original) then
            print (Will_change new_message);;
            review changes' (commit_changes ++ [(commit_hash, original, new_message)])
          else review changes' commit_changes
      | skip => print (Keeping_original original);; review changes' commit_changes
      | edit => review changes' commit_changes
      end
  end.

Definition rewrite_history (repo : Repo) (changes : list change) : M event (bool * Repo) :=
  match changes with
  | [] => mret (false, repo)
  | _ =>
      print (Found_corrections (length changes));;
      reviewed ← review changes [];
      match reviewed with
      | None => mret (false, repo)
      | Some [] => print No_changes_to_apply;; mret (false, repo)
      | Some commit_changes =>
          print (Summary commit_changes);;
          final_confirm ← input;
          if negb (String.eqb (lower (strip_blank final_confirm)) "yes") then
            print Aborted;; mret (false, repo)
          else
            print Rewriting;;
            '(success, repo') ← rewrite_commits_with_script repo commit_changes;
            if success : bool then print Rewritten;; mret (true, repo')
            else print Failed_to_rewrite;; mret (false, repo')
      end
  end.

Section Batch.

Variable langdetect_detect : string → option string.
Variables spell_en spell_de : SpellChecker.

Definition process_repository (repo : Repo) : M event (status * Repo) :=
  print (Repository (repo_name repo));;
  if negb (clean repo) then
    print Dirty_working_tree;; mret (skipped "dirty working tree", repo)
  else
    match commits repo with
    | [] => print No_commits_found;; mret (skipped "no commits", repo)
    | _ =>
        print (Found_commits (length (commits repo)));;
        let changes := preview_changes langdetect_detect (commits repo) spell_en spell_de in
        match changes with
        | [] => print No_spelling_errors;; mret (is_clean, repo)
        | _ =>
            '(success, repo') ← rewrite_history repo changes;
            if success : bool then mret (corrected (length changes), repo')
            else mret (skipped "user declined", repo')
        end
    end.

(** The loop of [main] over [repos]: the results and the repositories as
    the run leaves them. *)
Fixpoint process_all (repos : list Repo) : M event (list (string * status) * list Repo) :=
  match repos with
  | [] => mret ([], [])
  | repo :: repos' =>
      '(st, repo') ← process_repository repo;
      '(results, after) ← process_all repos';
      mret ((repo_name repo, st) :: results, repo' :: after)
  end.

(** [main].  [path_exists] and [find_git_repos] answer for the file
    system at the resolved path of [sys.argv[1]]. *)
Definition main (argv : list string) (path_exists : string → bool)
    (find_git_repos : string → list Repo) : M event (list Repo) :=
  match argv with
  | _ :: base_path :: _ =>
      if negb (path_exists base_path) then
        print (Path_does_not_exist base_path);; sys_exit 1
      else
        match find_git_repos base_path with
        | [] => print No_repositories_found;; sys_exit 1
        | repos =>
            print (Found_repositories (repo_name <$> repos));;
            '(results, after) ← process_all repos;
            print (Final_summary results);;
            mret after
        end
  | _ => print Usage;; sys_exit 1
  end.

End Batch.

End FixCommits.

(** ** monthly-activity.py: the timeline summarizer *)

Module MonthlyActivity.
Import PyStr Console.

(** A row of [csv.DictReader]: the columns of the header line; a column
    the line is too short for holds [None]. *)
Abbreviation row := (gmap string (option string)).

Record bucket : Type := {
  activities : list row;
  total_distance : float;
  total_duration : float;
  activity_counts : gmap (option string) nat;
  visit_counts : nat
}.

(** The value [defaultdict] makes for a month it has not seen. *)
Definition new_bucket : bucket := {|
  activities := [];
  total_distance := 0%float;
  total_duration := 0%float;
  activity_counts := ∅;
  visit_counts := 0
|}.

(** [row[key]] *)
Definition field (r : row) (key : string) : fallible (option string) :=
  match r !! key with
  | Some v => inr v
  | None => inl (KeyError key)
  end.

Section Parse.

(** [float(text)] for a non-empty [text]; [None] stands for [ValueError]. *)
Variable float_of_string : string → option float.

(** [float(row[key]) if row[key] else 0.0] *)
Definition number (r : row) (key : string) : fallible float :=
  v ← field r key;
  match v with
  | None => mret 0%float
  | Some text =>
      if String.eqb text EmptyString then mret 0%float
      else match float_of_string text with
           | Some x => mret x
           | None => inl (ValueError text)
           end
  end.

(** The body of the loop over the rows. *)
Definition add_row (monthly_data : gmap string bucket) (r : row)
    : fallible (gmap string bucket) :=
  timestamp ← field r "timestamp";
  match timestamp with
  | None => inl TypeError
  | Some timestamp =>
      let month := take 7 timestamp in
      record_type ← field r "record_type";
      let b := default new_bucket (monthly_data !! month) in
      distance ← number r "distance_meters";
      duration ← number r "duration_seconds";
      let b1 := {| activities := activities b ++ [r];
                   total_distance := (total_distance b + distance)%float;
                   total_duration := (total_duration b + duration)%float;
                   activity_counts := activity_counts b;
                   visit_counts := visit_counts b |} in
      if bool_decide (record_type = Some "activity") then
        activity_type ← field r "activity_type";
        mret (<[month := {| activities := activities b1;
                            total_distance := total_distance b1;
                            total_duration := total_duration b1;
                            activity_counts :=
                              <[activity_type :=
                                  S (default 0 (activity_counts b1 !! activity_type))]>
                                (activity_counts b1);
                            visit_counts := visit_counts b1 |}]> monthly_data)
      else if bool_decide (record_type = Some "visit") then
        mret (<[month := {| activities := activities b1;
                            total_distance := total_distance b1;
                            total_duration := total_duration b1;
                            activity_counts := activity_counts b1;
                            visit_counts := S (visit_counts b1) |}]> monthly_data)
      else mret (<[month := b1]> monthly_data)
  end.

Fixpoint add_rows (monthly_data : gmap string bucket) (rows : list row)
    : fallible (gmap string bucket) :=
  match rows with
  | [] => mret monthly_data
  | r :: rows' => monthly_data' ← add_row monthly_data r; add_rows monthly_data' rows'
  end.

(** [parse_timeline_by_month], on the rows the reader yields. *)
Definition parse_timeline_by_month (rows : list row) : fallible (gmap string bucket) :=
  add_rows ∅ rows.

Inductive event : Type :=
| Reading (csv_file : string)
| Monthly_summary (monthly_data : gmap string bucket)
| Summary_saved (output_file : string).

(** [print_monthly_summary]: one block per month of the map, then the
    same text written to [output_file] when one is given. *)
Definition print_monthly_summary (monthly_data : gmap string bucket)
    (output_file : option string) : M event unit :=
  print (Monthly_summary monthly_data);;
  match output_file with
  | Some f => print (Summary_saved f)
  | None => mret ()
  end.

(** The script's [__main__] block; [open_csv] is the file system: the
    rows of a file, or [None] when it cannot be opened. *)
Definition main (open_csv : string → option (list row)) : M event unit :=
  let csv_file := "timeline.csv" in
  print (Reading csv_file);;
  match open_csv csv_file with
  | None => raise FileNotFoundError
  | Some rows =>
      match parse_timeline_by_month rows with
      | inl e => raise e
      | inr monthly_data =>
          print_monthly_summary monthly_data None;;
          print_monthly_summary monthly_data (Some "monthly-summary.txt")
      end
  end.

End Parse.

End MonthlyActivity.

(** ** music-diff.py: the folder differ *)

Module MusicDiff.
Import PyStr Console.

(** A [pathlib] path: the anchor (["/"] or empty) and the components. *)
Record Path : Type := {
  anchor : string;
  parts : list string
}.

(** [str(p)] *)
Definition str (p : Path) : string :=
  match parts p with
  | [] => if String.eqb (anchor p) EmptyString then "." else anchor p
  | _ => anchor p +:+ join "/" (parts p)
  end.

(** [folder / rel] for relative components [rel]. *)
Definition joinpath (folder : Path) (rel : list string) : Path :=
  {| anchor := anchor folder; parts := parts folder ++ rel |}.

Fixpoint strip_prefix (pre l : list string) : option (list string) :=
  match pre, l with
  | [], _ => Some l
  | a :: pre', b :: l' => if String.eqb a b then strip_prefix pre' l' else None
  | _ :: _, [] => None
  end.

(** [file.relative_to(folder)]; [None] stands for [ValueError], which
    no path below [folder] meets. *)
Definition relative_to (file folder : Path) : option Path :=
  if String.eqb (anchor file) (anchor folder) then
    rel ← strip_prefix (parts folder) (parts file);
    Some {| anchor := EmptyString; parts := rel |}
  else None.

(** [p.name]: the last component. *)
Definition name (p : Path) : string := default EmptyString (last (parts p)).

(** [s.rfind(c)] *)
Fixpoint rfind (c : ascii) (s : string) : option nat :=
  match s with
  | EmptyString => None
  | String d s' =>
      match rfind c s' with
      | Some i => Some (S i)
      | None => if Ascii.eqb d c then Some 0 else None
      end
  end.

(** [p.suffix]: from the last dot of the name, unless the name starts or
    ends with it. *)
Definition suffix (p : Path) : string :=
  match rfind "." (name p) with
  | Some i =>
      if (0 <? i) && (i <? String.length (name p) - 1) then drop i (name p)
      else EmptyString
  | None => EmptyString
  end.

(** [is_mtp_path] *)
Definition is_mtp_path (path : string) : bool :=
  startswith "mtp://" path || startswith "gvfs://" path || startswith "afc://" path.

Definition default_extensions : list string :=
  [".mp3"; ".flac"; ".wav"; ".m4a"; ".aac"; ".ogg"; ".wma"].

(** The file system under a folder as a scan sees it. *)
Record FileSystem : Type := {
  (** [Path(text)] *)
  path_of : string → Path;
  (** [convert_mtp_to_local] *)
  convert_mtp_to_local : string → option string;
  (** [folder.exists()] *)
  folder_exists : Path → bool;
  (** what [folder.rglob] yields before it ends or raises: the
      components below the folder and [is_file()] of each entry *)
  rglob : Path → list (list string * bool)
}.

(** The folder [get_music_files] scans; [None] on the paths where it
    returns the empty map at once. *)
Definition scanned_root (fs : FileSystem) (folder_path : string) : option Path :=
  folder_path' ←
    (if is_mtp_path folder_path then
       match convert_mtp_to_local fs folder_path with
       | Some local_path =>
           if String.eqb local_path EmptyString then None else Some local_path
       | None => None
       end
     else Some folder_path);
  let folder := path_of fs folder_path' in
  if folder_exists fs folder then Some folder else None.

(** The body of the loop over [folder.rglob]. *)
Definition add_file (extensions : list string) (folder : Path)
    (music_files : gmap string string) (entry : list string * bool) : gmap string string :=
  let file := joinpath folder entry.1 in
  if entry.2 && bool_decide (lower (suffix file) ∈ extensions) then
    match relative_to file folder with
    | Some rel_path => <[str rel_path := str file]> music_files
    | None => music_files
    end
  else music_files.

(** [get_music_files] *)
Definition get_music_files (fs : FileSystem) (folder_path : string)
    (extensions : list string) : gmap string string :=
  match scanned_root fs folder_path with
  | Some folder => fold_left (add_file extensions folder) (rglob fs folder) ∅
  | None => ∅
  end.

(** The three sets [compare_folders] computes from the two maps. *)
Definition only_in_1 (files1 files2 : gmap string string) : gset string :=
  dom files1 ∖ dom files2.

Definition only_in_2 (files1 files2 : gmap string string) : gset string :=
  dom files2 ∖ dom files1.

Definition in_both (files1 files2 : gmap string string) : gset string :=
  dom files1 ∩ dom files2.

Inductive event : Type :=
| Usage
| Result (only1 only2 both : gset string).

Definition compare_folders (fs : FileSystem) (folder1 folder2 : string) : M event unit :=
  let files1 := get_music_files fs folder1 default_extensions in
  let files2 := get_music_files fs folder2 default_extensions in
  print (Result (only_in_1 files1 files2) (only_in_2 files1 files2) (in_both files1 files2)).

(** The script's [__main__] block. *)
Definition main (fs : FileSystem) (argv : list string) : M event unit :=
  match argv with
  | [_; ordner1; ordner2] => compare_folders fs ordner1 ordner2
  | _ => print Usage;; sys_exit 1
  end.

End MusicDiff.

(** ** Vocabulary of the properties *)

Module TimelineSpec.
Import PyStr Console MonthlyActivity.

(** The bucket key of a row: the first seven characters of its
    timestamp. *)
Definition month_of (r : row) : option string :=
  match r !! "timestamp" with
  | Some (Some timestamp) => Some (take 7 timestamp)
  | _ => None
  end.

Section Values.

Variable float_of_string : string → option float.

(** The number a row contributes for a column: 0.0 when the field is
    empty or absent. *)
Definition value_of (key : string) (r : row) : float :=
  match r !! key with
  | Some (Some text) =>
      if String.eqb text EmptyString then 0%float
      else default 0%float (float_of_string text)
  | _ => 0%float
  end.

Definition numeric (key : string) (r : row) : bool :=
  match r !! key with
  | Some (Some text) =>
      String.eqb text EmptyString || bool_decide (is_Some (float_of_string text))
  | Some None => true
  | None => false
  end.

(** A record of a timeline file: the header has the columns, the line
    reaches its timestamp, and the numbers that are present are numbers. *)
Definition record (r : row) : bool :=
  bool_decide (is_Some (month_of r))
  && bool_decide (is_Some (r !! "record_type"))
  && bool_decide (is_Some (r !! "activity_type"))
  && numeric "distance_meters" r
  && numeric "duration_seconds" r.

(** The sum as the loop takes it: from 0.0, in the order of the file. *)
Definition total (key : string) (rs : list row) : float :=
  fold_left (λ acc r, (acc + value_of key r)%float) rs 0%float.

End Values.

(** The records of a month, in the order of the file. *)
Definition records_of (month : string) (rows : list row) : list row :=
  filter (λ r, month_of r = Some month) rows.

(** The bucket of a month as [defaultdict] hands it out. *)
Definition bucket_at (md : gmap string bucket) (month : string) : bucket :=
  default new_bucket (md !! month).

End TimelineSpec.

(** ** Sample inputs *)

Module Samples.
Import PyStr Console.

(** [float] on the decimal numerals without sign, point or exponent. *)
Fixpoint digits_value (acc : Z) (s : string) : option Z :=
  match s with
  | EmptyString => Some acc
  | String c s' =>
      if isdigit_char c
      then digits_value (10 * acc + Z.of_nat (code c - 48)) s'
      else None
  end.

Definition float_of_digits (s : string) : option float :=
  match s with
  | EmptyString => None
  | _ => (λ z, PrimFloat.of_uint63 (Uint63.of_Z z)) <$> digits_value 0 s
  end.

Definition timeline : list MonthlyActivity.row :=
  [ list_to_map [ ("timestamp", Some "2025-06-15T10:00:00"); ("record_type", Some "activity");
                  ("activity_type", Some "walking"); ("distance_meters", Some "1500");
                  ("duration_seconds", Some "600"); ("end_timestamp", Some "2025-06-15T10:10:00") ];
    list_to_map [ ("timestamp", Some "2025-06-20T08:00:00"); ("record_type", Some "visit");
                  ("activity_type", Some ""); ("distance_meters", Some "");
                  ("duration_seconds", None); ("end_timestamp", None) ];
    list_to_map [ ("timestamp", Some "2025-07-01T09:30:00"); ("record_type", Some "activity");
                  ("activity_type", Some "cycling"); ("distance_meters", Some "8000");
                  ("duration_seconds", Some "1800"); ("end_timestamp", Some "2025-07-01T10:00:00") ] ].

End Samples.

(** Reading the trace of a run of the corrector. *)
Module BatchSpec.
Import Console FixCommits.

(** The calls of [git filter-branch] in a trace, and whether the trace
    shows the user's abort. *)
Definition is_filter_branch (e : event) : bool :=
  match e with
  | Filter_branch _ _ => true
  | _ => false
  end.

Definition is_aborted_by_user (e : event) : bool :=
  match e with
  | Aborted_by_user => true
  | _ => false
  end.

Definition rewrites (out : list event) : list event := filter is_filter_branch out.

Definition user_aborted (out : list event) : bool := existsb is_aborted_by_user out.

(** A run that neither leaves through [sys.exit] nor raises anything but
    the end of the input. *)
Definition quiet {A} (r : result A) : Prop :=
  match r with
  | Done _ _ => True
  | Raised e => e = EOFError
  | Exited _ => False
  end.

End BatchSpec.

(** Sample dictionaries, detectors and repositories. *)
Module BatchSamples.
Import PyStr Console FixCommits.

(** A [SpellChecker] loaded with a word list and a table of
    corrections. *)
Definition spell_checker (words : list string) (corrections : list (string * string))
    : SpellChecker :=
  {| known w := mem w words;
     correction w := snd <$> List.find (λ e, String.eqb (fst e) w) corrections |}.

Definition dictionary : SpellChecker :=
  spell_checker ["fix"; "bug"; "add"; "a"; "write"; "bachelor"; "bachelor's"; "thesis";
                 "die"; "the"]
                [("x", "a")].

(** [langdetect] failing on every text (the corrector then takes
    English), and answering German for every text. *)
Definition no_detection : string → option string := λ _, None.
Definition german : string → option string := λ _, Some "de".

Definition first_repo : Repo :=
  {| repo_name := "first"; clean := true;
     commits := [("a1", "fix bug")]; filter_branch_ok := true |}.

Definition second_repo : Repo :=
  {| repo_name := "second"; clean := true;
     commits := [("b1", "fix bug"); ("b2", "Add test")]; filter_branch_ok := true |}.

End BatchSamples.

(** What the specification calls a compliant message. *)
Module CorrectorSpec.
Import PyStr PyRe FixCommits.

(** No pattern of the phrase table matches. *)
Definition no_phrase_match (l : lang) (message : string) : bool :=
  forallb (λ entry, bool_decide (search entry.1 message = None)) (phrase_corrections l).





(** A token: not empty and without blank. *)
Definition token (w : string) : bool :=
  negb (String.eqb w EmptyString) && negb (any_char isspace w).

(** The corrections of a dictionary are single words. *)
Definition corrects_to_words (spell : SpellChecker) : Prop :=
  ∀ w c, correction spell w = Some c → any_char isspace c = false.

(** The shape of the tables: every pattern opens with [\b] and a
    lower-case or upper-case letter, the English replacements open with
    a lower-case letter, the German ones with an upper-case letter. *)
Definition table_entry (l : lang) (pattern replacement : string) : Prop :=
  ∃ c re r rs,
    compile pattern = WordBoundary :: Lit c :: re ∧
    replacement = String r rs ∧
    match l with
    | En => islower_char c = true ∧ islower_char r = true ∧
            isupper_char (upper_char r) = true
    | De => isupper_char r = true ∧ upper_char r = r
    end.

(** The pattern of literal characters [p], without boundaries. *)
Fixpoint literal (p : string) : list atom :=
  match p with
  | EmptyString => []
  | String c p' => Lit c :: literal p'
  end.

(** An entry that puts two words for two words: the pattern is
    [\b], two words with a space between them, [\b], and so is the
    replacement, capitalized or not. *)
Definition two_words (pattern replacement : string) : Prop :=
  ∃ p1 p2 r1 r2,
    compile pattern = WordBoundary :: literal (p1 +:+ String " " p2) ++ [WordBoundary] ∧
    lower (p1 +:+ String " " p2) = p1 +:+ String " " p2 ∧
    replacement = r1 +:+ String " " r2 ∧
    token p1 = true ∧ token p2 = true ∧
    token r1 = true ∧ token (upper_first r1) = true ∧ token r2 = true.

End CorrectorSpec.
(** ** git-fix-commits.py: the review *)

Module ReviewSpec.
Import PyStr Console FixCommits.

(** Changes accepted among the proposed ones: each has the hash and the
    original message of a proposal, in the order of the proposals, and a
    new message that differs from the original. *)
Definition approved (proposed accepted : list change) : Prop :=
  Forall (λ c : change, c.2 ≠ c.1.2) accepted ∧
  sublist (fst <$> accepted) (fst <$> proposed).

End ReviewSpec.


(** ** git-fix-commits.py: reading git's output and writing the filter *)

Module GitText.
Import PyStr.

(** The newline and the double quote. *)
Definition nl : ascii := ascii_of_nat 10.
Definition dquote : ascii := ascii_of_nat 34.

(** [run_git_command]: the standard output of the command, stripped;
    the empty string when the command fails ([None]). *)
Definition run_git_command (result : option string) : string :=
  match result with
  | Some stdout => strip_blank stdout
  | None => EmptyString
  end.

(** [check_clean_working_tree], on the result of [git status --porcelain]. *)
Definition check_clean_working_tree (result : option string) : bool :=
  String.eqb (run_git_command result) EmptyString.

(** [s.split(sep)] for a separator of one character. *)
Fixpoint split_on (sep : ascii) (s : string) : list string :=
  match s with
  | EmptyString => [EmptyString]
  | String c s' =>
      if Ascii.eqb c sep then EmptyString :: split_on sep s'
      else match split_on sep s' with
           | w :: ws => String c w :: ws
           | [] => [String c EmptyString]
           end
  end.

(** [s.find(sub)] *)
Fixpoint find (sub s : string) : option nat :=
  if startswith sub s then Some 0
  else match s with
       | EmptyString => None
       | String _ s' => S <$> find sub s'
       end.

(** [s.split(sep, 1)] *)
Definition split_once (sep s : string) : list string :=
  match find sep s with
  | Some i => [take i s; drop (i + String.length sep) s]
  | None => [s]
  end.

(** The body of the loop of [get_commit_list] over the lines. *)
Definition parse_line (line : string) : option (string * string) :=
  if String.eqb line EmptyString then None
  else match split_once "|||" line with
       | [commit_hash; message] => Some (commit_hash, message)
       | _ => None
       end.

(** [get_commit_list], on the result of [git log --format=%H|||%s]. *)
Definition get_commit_list (result : option string) : list (string * string) :=
  let output := run_git_command result in
  if String.eqb output EmptyString then []
  else reverse (omap parse_line (split_on nl output)).

(** The escaping of [rewrite_commits_with_script]: four [replace] calls,
    for the backslash, the double quote, the dollar and the backquote. *)
Definition shell_escape (msg : string) : string :=
  replace "`" "\`"
    (replace "$" "\$"
       (replace (String dquote EmptyString) (String "\" (String dquote EmptyString))
          (replace "\" "\\" msg))).

End GitText.

(** What git prints and what the shell reads. *)
Module GitTextSpec.
Import PyStr GitText CorrectorSpec.


(** The lines of that output. *)
Definition log_line (commit : string * string) : string :=
  commit.1 +:+ "|||" +:+ commit.2.



(** The text the shell reads between double quotes: a backslash quotes
    a following dollar, backquote, double quote or backslash and
    vanishes with a following newline, any other backslash stands for
    itself; [None] where a dollar or backquote would start an expansion
    or a double quote would end the word. *)
Definition quoted_by_backslash (c : ascii) : bool :=
  Ascii.eqb c "$" || Ascii.eqb c "`" || Ascii.eqb c dquote || Ascii.eqb c "\".

Fixpoint read_double_quoted (s : string) : option string :=
  match s with
  | EmptyString => Some EmptyString
  | String c s' =>
      if Ascii.eqb c "\" then
        match s' with
        | String d s'' =>
            if quoted_by_backslash d then String d <$> read_double_quoted s''
            else if Ascii.eqb d nl then read_double_quoted s''
            else String c <$> read_double_quoted s'
        | EmptyString => None
        end
      else if quoted_by_backslash c then None
      else String c <$> read_double_quoted s'
  end.

(** The substitution of a string for each character. *)
Fixpoint subst_chars (f : ascii → string) (s : string) : string :=
  match s with
  | EmptyString => EmptyString
  | String c s' => f c +:+ subst_chars f s'
  end.

(** The four replacements, character by character. *)
Definition escape_char (c : ascii) : string :=
  subst_chars (λ c, if Ascii.eqb "`" c then "\`" else String c EmptyString)
    (subst_chars (λ c, if Ascii.eqb "$" c then "\$" else String c EmptyString)
       (subst_chars (λ c, if Ascii.eqb dquote c
                          then String "\" (String dquote EmptyString)
                          else String c EmptyString)
          (if Ascii.eqb "\" c then "\\" else String c EmptyString))).

End GitTextSpec.

(** ** monthly-activity.py: the counters and the unreadable rows *)

Module TimelineCounts.
Import PyStr Console MonthlyActivity TimelineSpec.

(** A row counted as a visit. *)
Definition is_visit (r : row) : bool :=
  bool_decide (r !! "record_type" = Some (Some "visit")).

(** A row counted as an activity of type [t]; the type of a line too
    short for the column is [None]. *)
Definition is_activity (t : option string) (r : row) : bool :=
  bool_decide (r !! "record_type" = Some (Some "activity") ∧ r !! "activity_type" = Some t).

Definition count (p : row → bool) (rs : list row) : nat :=
  length (filter (λ r, p r = true) rs).

Section Errors.

Variable float_of_string : string → option float.

(** What [float(row[key]) if row[key] else 0.0] raises. *)
Definition number_error (key : string) (r : row) : option exn :=
  match r !! key with
  | None => Some (KeyError key)
  | Some None => None
  | Some (Some text) =>
      if String.eqb text EmptyString then None
      else match float_of_string text with
           | Some _ => None
           | None => Some (ValueError text)
           end
  end.

(** What makes a row unreadable, in the order the loop body meets it:
    a column the header lacks, a line that ends before its timestamp,
    a number that is none. *)
Definition row_error (r : row) : option exn :=
  match r !! "timestamp" with
  | None => Some (KeyError "timestamp")
  | Some None => Some TypeError
  | Some (Some _) =>
      match r !! "record_type" with
      | None => Some (KeyError "record_type")
      | Some record_type =>
          match number_error "distance_meters" r with
          | Some e => Some e
          | None =>
              match number_error "duration_seconds" r with
              | Some e => Some e
              | None =>
                  if bool_decide (record_type = Some "activity") then
                    match r !! "activity_type" with
                    | None => Some (KeyError "activity_type")
                    | Some _ => None
                    end
                  else None
              end
          end
      end
  end.

End Errors.

End TimelineCounts.

(** ** music-diff.py: the mount of a device *)

Module Gvfs.
Import PyStr GitText.

(** [sub in s] *)
Definition contains (sub s : string) : bool :=
  match find sub s with
  | Some _ => true
  | None => false
  end.

(** [s.endswith(c)] for a character [c]. *)
Fixpoint ends_with (c : ascii) (s : string) : bool :=
  match s with
  | EmptyString => false
  | String d EmptyString => Ascii.eqb d c
  | String _ s' => ends_with c s'
  end.

(** [os.path.join(a, b)] *)
Definition path_join (a b : string) : string :=
  if startswith "/" b then b
  else if String.eqb a EmptyString || ends_with "/" a then a +:+ b
  else a +:+ "/" +:+ b.

(** What [convert_mtp_to_local] asks of the system: the user id as
    [f"{uid}"] prints it, [os.path.exists], [os.listdir] ([None] when it
    raises) and [urllib.parse.unquote]. *)
Record OS : Type := {
  uid : string;
  path_exists : string → bool;
  listdir : string → option (list string);
  unquote : string → string
}.

Definition gvfs_root (os : OS) : string := "/run/user/" +:+ uid os +:+ "/gvfs".

(** ['Internal' in part or 'SD' in part or 'storage' in part] *)
Definition storage_part (part : string) : bool :=
  contains "Internal" part || contains "SD" part || contains "storage" part.

(** The loop over [enumerate(parts)], on the parts from index [i] on:
    the first test path that exists. *)
Fixpoint find_test_path (os : OS) (mount_path : string) (parts : list string)
    : option string :=
  match parts with
  | [] => None
  | part :: parts' =>
      if storage_part part then
        let rel_path := unquote os (join "/" parts) in
        let test_path := path_join mount_path rel_path in
        if path_exists os test_path then Some test_path
        else find_test_path os mount_path parts'
      else find_test_path os mount_path parts'
  end.

(** The loop over [os.listdir(gvfs_root)]. *)
Fixpoint first_mtp_mount (os : OS) (mtp_path : string) (mounts : list string)
    : option string :=
  match mounts with
  | [] => None
  | mount :: mounts' =>
      let mount_path := path_join (gvfs_root os) mount in
      if contains "mtp" (lower mount) then
        if contains "/Internal" mtp_path || contains "/SD" mtp_path then
          match find_test_path os mount_path (split_on "/" mtp_path) with
          | Some test_path => Some test_path
          | None => Some mount_path
          end
        else Some mount_path
      else first_mtp_mount os mtp_path mounts'
  end.

(** [convert_mtp_to_local]; an exception is answered by [None]. *)
Definition convert_mtp_to_local (os : OS) (mtp_path : string) : option string :=
  if negb (path_exists os (gvfs_root os)) then None
  else
    match listdir os (gvfs_root os) with
    | Some mounts => first_mtp_mount os mtp_path mounts
    | None => None
    end.

(** The file system of [get_music_files] on such a system. *)
Definition file_system (os : OS) (path_of : string → MusicDiff.Path)
    (folder_exists : MusicDiff.Path → bool)
    (rglob : MusicDiff.Path → list (list string * bool)) : MusicDiff.FileSystem :=
  {| MusicDiff.path_of := path_of;
     MusicDiff.convert_mtp_to_local := convert_mtp_to_local os;
     MusicDiff.folder_exists := folder_exists;
     MusicDiff.rglob := rglob |}.

End Gvfs.

Module MusicSamples.
Import PyStr MusicDiff.

(** A folder with a song, a file that is named like an extension, and a
    directory. *)
Definition disk : FileSystem :=
  {| path_of := λ _, {| anchor := "/"; parts := ["music"] |};
     convert_mtp_to_local := λ _, None;
     folder_exists := λ _, true;
     rglob := λ _, [(["a"], false); (["a"; "Song.MP3"], true); ([".mp3"], true)] |}.

(** A session with a USB stick and two telephones mounted. *)
Definition session : Gvfs.OS :=
  {| Gvfs.uid := "1000";
     Gvfs.path_exists := λ p, bool_decide (p ∈ ["/run/user/1000/gvfs";
                                                 "/run/user/1000/gvfs/mtp:host=one";
                                                 "/run/user/1000/gvfs/mtp:host=two"]);
     Gvfs.listdir := λ p, if String.eqb p "/run/user/1000/gvfs"
                          then Some ["smb-share"; "mtp:host=one"; "mtp:host=two"]
                          else None;
     Gvfs.unquote := λ s, s |}.

End MusicSamples.

(** * Properties *)

(** ** Strings *)

Section PyStrFacts.
Import PyStr CorrectorSpec.

Lemma isspace_lower_char (c : ascii) : isspace (lower_char c) = isspace c.
Proof. by destruct c as [[] [] [] [] [] [] [] []]. Qed.

Lemma isspace_upper_char (c : ascii) : isspace (upper_char c) = isspace c.
Proof. by destruct c as [[] [] [] [] [] [] [] []]. Qed.

Lemma upper_not_lower (c : ascii) : isupper_char c = true → islower_char c = false.
Proof. by destruct c as [[] [] [] [] [] [] [] []]. Qed.

Lemma append_nil_l (s : string) : EmptyString +:+ s = s.
Proof. reflexivity. Qed.

Lemma append_cons (c : ascii) (s t : string) : String c s +:+ t = String c (s +:+ t).
Proof. reflexivity. Qed.

Lemma any_char_app (p : ascii → bool) (s t : string) :
  any_char p (s +:+ t) = any_char p s || any_char p t.
Proof.
  induction s as [|c s IH]; [done|].
  rewrite append_cons; simpl. by rewrite IH, orb_assoc.
Qed.

Lemma blank_free_lower (s : string) : any_char isspace (lower s) = any_char isspace s.
Proof.
  induction s as [|c s IH]; simpl; [done|].
  by rewrite isspace_lower_char, IH.
Qed.

Lemma blank_free_capitalize (s : string) :
  any_char isspace (capitalize s) = any_char isspace s.
Proof.
  destruct s as [|c s]; simpl; [done|].
  by rewrite isspace_upper_char, blank_free_lower.
Qed.

Lemma lower_empty (s : string) : lower s = EmptyString ↔ s = EmptyString.
Proof. by destruct s. Qed.

Lemma capitalize_empty (s : string) : capitalize s = EmptyString ↔ s = EmptyString.
Proof. by destruct s. Qed.

Lemma any_char_lstrip (p q : ascii → bool) (s : string) :
  any_char p s = false → any_char p (lstrip_by q s) = false.
Proof.
  induction s as [|c s IH]; simpl; [done|].
  intros [Hc Hs]%orb_false_iff. destruct (q c); [by apply IH|].
  simpl. by rewrite Hc, Hs.
Qed.

Lemma any_char_rstrip (p q : ascii → bool) (s : string) :
  any_char p s = false → any_char p (rstrip_by q s) = false.
Proof.
  induction s as [|c s IH]; simpl; [done|].
  intros [Hc Hs]%orb_false_iff. specialize (IH Hs).
  destruct (rstrip_by q s) as [|d r]; simpl in *.
  - destruct (q c); simpl; [done|]. by rewrite Hc.
  - by rewrite Hc, IH.
Qed.

Lemma any_char_strip (p : ascii → bool) (chars s : string) :
  any_char p s = false → any_char p (strip chars s) = false.
Proof. intros H. unfold strip. by apply any_char_rstrip, any_char_lstrip. Qed.

(** [replace] keeps a string free of blanks and non-empty when what it
    puts in is. *)
Lemma blank_free_replace_go (old new : string) (skip : nat) (s : string) :
  any_char isspace new = false → any_char isspace s = false →
  any_char isspace (replace_go old new skip s) = false.
Proof.
  intros Hnew. revert skip. induction s as [|c s IH]; intros skip; simpl; [done|].
  intros [Hc Hs]%orb_false_iff.
  destruct skip as [|k]; [|by apply IH].
  destruct (startswith old (String c s)).
  - rewrite any_char_app, Hnew. by apply IH.
  - simpl. rewrite Hc. by apply IH.
Qed.

Lemma blank_free_intersperse (new s : string) :
  any_char isspace new = false → any_char isspace s = false →
  any_char isspace (intersperse new s) = false.
Proof.
  intros Hnew. induction s as [|c s IH]; simpl; [done|].
  intros [Hc Hs]%orb_false_iff.
  rewrite any_char_app, Hnew; simpl. rewrite Hc. by apply IH.
Qed.

Lemma append_empty (s t : string) : s +:+ t = EmptyString → s = EmptyString.
Proof. by destruct s. Qed.

Lemma token_replace (old new s : string) :
  token new = true → token s = true → token (replace old new s) = true.
Proof.
  unfold token. rewrite !andb_true_iff, !negb_true_iff, !String.eqb_neq.
  intros [Hne Hnew] [Hs Hblank]. split.
  - unfold replace. destruct old as [|a old].
    + destruct s; simpl; [done|]. by intros ?%append_empty.
    + destruct s as [|c s]; [done|]. simpl.
      destruct (_ && _); [by intros ?%append_empty|done].
  - unfold replace. destruct old; [by apply blank_free_intersperse|].
    by apply blank_free_replace_go.
Qed.

(** *** Splitting and joining *)

Lemma split_tokens (s : string) : Forall (λ w, token w = true) (split s).
Proof.
  induction s as [|c s IH]; simpl; [constructor|].
  destruct (isspace c) eqn:Hc; [done|].
  destruct (starts_blank s).
  - constructor; [|done]. unfold token; simpl. by rewrite Hc.
  - destruct (split s) as [|w ws].
    + constructor; [|done]. unfold token; simpl. by rewrite Hc.
    + inversion IH as [|? ? Hw Hws]; subst. constructor; [|done].
      unfold token in *; simpl. rewrite Hc; simpl.
      by apply andb_true_iff in Hw as [_ ?].
Qed.

Lemma split_token_app (w rest : string) :
  token w = true → starts_blank rest = true → split (w +:+ rest) = w :: split rest.
Proof.
  unfold token. rewrite andb_true_iff, !negb_true_iff, String.eqb_neq.
  intros [Hne Hblank] Hrest.
  induction w as [|c w IH]; [done|]. rewrite append_cons. simpl in *.
  apply orb_false_iff in Hblank as [Hc Hw]. rewrite Hc.
  destruct w as [|d w].
  - rewrite append_nil_l. by rewrite Hrest.
  - rewrite IH by done. rewrite append_cons. simpl in *.
    apply orb_false_iff in Hw as [Hd Hw]. by rewrite Hd.
Qed.

Lemma append_empty_r (s : string) : s +:+ EmptyString = s.
Proof. induction s as [|c s IH]; [done|]. by rewrite append_cons, IH. Qed.

Lemma split_join (ws : list string) :
  Forall (λ w, token w = true) ws → split (join " " ws) = ws.
Proof.
  induction 1 as [|w ws Hw Hws IH]; [done|].
  destruct ws as [|w' ws].
  - simpl. rewrite <- (append_empty_r w) at 1. by rewrite split_token_app.
  - change (join " " (w :: w' :: ws)) with (w +:+ " " +:+ join " " (w' :: ws)).
    rewrite split_token_app by done.
    change (split (" " +:+ join " " (w' :: ws))) with (split (join " " (w' :: ws))).
    by rewrite IH.
Qed.

(** *** Counting tokens *)

Lemma append_assoc (s t u : string) : (s +:+ t) +:+ u = s +:+ (t +:+ u).
Proof. induction s as [|c s IH]; [done|]. by rewrite !append_cons, IH. Qed.

Lemma split_nonempty (s : string) : starts_blank s = false → split s ≠ [].
Proof.
  destruct s as [|c s]; simpl; [done|]. intros ->.
  destruct (starts_blank s); [done|]. by destruct (split s).
Qed.

(** The number of tokens when a character is put in front. *)
Lemma count_cons (c : ascii) (s : string) :
  length (split (String c s)) =
    if isspace c then length (split s)
    else if starts_blank s then S (length (split s)) else length (split s).
Proof.
  simpl. destruct (isspace c); [done|].
  destruct (starts_blank s) eqn:Hs; [done|].
  pose proof (split_nonempty s Hs). by destruct (split s).
Qed.

Lemma starts_blank_app (s t : string) :
  starts_blank (s +:+ t) = if String.eqb s EmptyString then starts_blank t else starts_blank s.
Proof. by destruct s. Qed.

(** In front of the same text two strings that start alike and have
    the same number of tokens give the same number of tokens. *)
Lemma count_app_congr (a x y : string) :
  starts_blank x = starts_blank y → length (split x) = length (split y) →
  length (split (a +:+ x)) = length (split (a +:+ y)).
Proof.
  intros Hb Hc. induction a as [|c a IH]; [done|].
  rewrite !append_cons, !count_cons, IH, !starts_blank_app, Hb. done.
Qed.

Lemma count_token_app (t rest : string) :
  token t = true →
  length (split (t +:+ rest)) =
    if starts_blank rest then S (length (split rest)) else length (split rest).
Proof.
  unfold token. rewrite andb_true_iff, !negb_true_iff, String.eqb_neq.
  intros [Hne Hblank]. induction t as [|c t IH]; [done|].
  cbn [any_char] in Hblank. apply orb_false_iff in Hblank as [Hc Ht].
  rewrite append_cons, count_cons, Hc, starts_blank_app.
  destruct t as [|d t]; [done|].
  change (String.eqb (String d t) EmptyString) with false. cbv iota.
  pose proof Ht as Ht'. cbn [any_char] in Ht'.
  apply orb_false_iff in Ht' as [Hd _].
  change (starts_blank (String d t)) with (isspace d). rewrite Hd.
  by apply IH.
Qed.

Lemma starts_blank_token_app (t rest : string) :
  token t = true → starts_blank (t +:+ rest) = false.
Proof.
  unfold token. destruct t as [|c t]; [done|].
  intros [_ H]%andb_true_iff. apply negb_true_iff in H. cbn [any_char] in H.
  apply orb_false_iff in H as [Hc _]. by rewrite append_cons.
Qed.

(** Two tokens with a space between them count the same in any
    context, whatever the tokens are. *)
Lemma count_two_tokens (a t1 t2 r1 r2 b : string) :
  token t1 = true → token t2 = true → token r1 = true → token r2 = true →
  length (split (a +:+ (t1 +:+ String " " t2) +:+ b)) =
  length (split (a +:+ (r1 +:+ String " " r2) +:+ b)).
Proof.
  intros Ht1 Ht2 Hr1 Hr2. apply count_app_congr.
  - rewrite !append_assoc. by rewrite !starts_blank_token_app.
  - rewrite !append_assoc.
    rewrite (count_token_app t1), (count_token_app r1) by done.
    rewrite !append_cons. cbn [starts_blank].
    rewrite !count_cons. change (isspace " ") with true. cbv iota.
    by rewrite (count_token_app t2), (count_token_app r2).
Qed.

End PyStrFacts.

(** ** Commit-message corrector: the message heuristics *)

Section CorrectorFacts.
Import PyStr PyRe FixCommits CorrectorSpec BatchSamples.

Lemma token_lower (s : string) : token s = true → token (lower s) = true.
Proof.
  unfold token. rewrite blank_free_lower.
  destruct s; [done|]. by simpl.
Qed.

Lemma token_capitalize (s : string) : token s = true → token (capitalize s) = true.
Proof.
  unfold token. rewrite blank_free_capitalize.
  destruct s; [done|]. by simpl.
Qed.

Lemma token_strip (chars word : string) :
  token word = true → String.eqb (strip chars word) EmptyString = false →
  token (strip chars word) = true.
Proof.
  unfold token. rewrite !andb_true_iff, !negb_true_iff.
  intros [_ Hblank] Hne. split; [done|]. by apply any_char_strip.
Qed.

(** A correction the spelling branch puts in is a token when the
    dictionary corrects to single words. *)
Lemma spelling_token (l : lang) (spell : SpellChecker) (i : nat) (clean_word c : string) :
  corrects_to_words spell →
  spelling l spell i clean_word = Some c → token c = true.
Proof.
  intros Hspell. unfold spelling.
  destruct (known spell (lower clean_word)); [done|].
  destruct (correction spell (lower clean_word)) as [c0|] eqn:Hc; [|done].
  destruct (negb (String.eqb c0 EmptyString)) eqn:Hne; [|done].
  destruct (negb (String.eqb c0 (lower clean_word))); [|done]. simpl.
  assert (Htok : token c0 = true).
  { unfold token. rewrite Hne. simpl. by rewrite (Hspell _ _ Hc). }
  intros [= <-].
  destruct l; repeat case_match; auto using token_lower, token_capitalize.
Qed.

(** The loop appends a token for a token. *)
Lemma process_word_token (l : lang) (spell : SpellChecker) (i : nat) (word : string) :
  corrects_to_words spell →
  token word = true → token (process_word l spell i word) = true.
Proof.
  intros Hspell Hword. unfold process_word.
  destruct (has_special word); [done|].
  destruct (isupper word && _); [done|].
  destruct (String.eqb (strip punctuation word) EmptyString) eqn:Hne; [done|].
  pose proof (token_strip punctuation word Hword Hne) as Hclean.
  set (clean_word := strip punctuation word) in *. clearbody clean_word.
  assert (Hproper :
    token (if mem (lower clean_word) always_capitalized
           then if negb (String.eqb clean_word (capitalize (lower clean_word)))
                then replace clean_word (capitalize (lower clean_word)) word
                else word
           else match spelling l spell i clean_word with
                | Some c => replace clean_word c word
                | None => word
                end) = true).
  { destruct (mem _ always_capitalized).
    - destruct (negb _); [|done].
      by apply token_replace; [apply token_capitalize, token_lower|].
    - destruct (spelling l spell i clean_word) as [c|] eqn:Hc; [|done].
      apply token_replace; [|done]. by eapply spelling_token. }
  destruct (i =? 0).
  { destruct (first_islower clean_word); [|done].
    by apply token_replace; [apply token_capitalize|]. }
  destruct l.
  - destruct (mem _ lowercase_words_en && _); [|exact Hproper].
    destruct (negb (mem _ always_capitalized)); [|done].
    by apply token_replace; [apply token_lower|].
  - destruct (mem _ capitalized_nouns_de); [|exact Hproper].
    destruct (first_islower clean_word); [|done].
    by apply token_replace; [apply token_capitalize|].
Qed.

Lemma imap_tokens (f : nat → string → string) (ws : list string) :
  (∀ i w, token w = true → token (f i w) = true) →
  Forall (λ w, token w = true) ws → Forall (λ w, token w = true) (imap f ws).
Proof.
  intros Hf Hws. apply Forall_forall. intros w [i [w' [-> Hw']]]%elem_of_lookup_imap.
  apply Hf. rewrite Forall_forall in Hws. by eapply Hws, list_elem_of_lookup_2.
Qed.

(** When no pattern matches the loop over the phrase table changes
    nothing. *)
Lemma apply_phrases_no_match (l : lang) (message : string) :
  no_phrase_match l message = true → apply_phrases l message = message.
Proof.
  unfold no_phrase_match, apply_phrases.
  induction (phrase_corrections l) as [|[pattern replacement] table IH]; [done|].
  simpl. intros [Hp Ht]%andb_true_iff. apply bool_decide_eq_true in Hp.
  rewrite Hp. by apply IH.
Qed.

(** *** The phrase table *)

Lemma search_go_match (prev : option ascii) (re : list atom) (s : string) (i n : nat) :
  search_go prev re s = Some (i, n) →
  ∃ prev', match_here prev' re (drop i s) = Some n.
Proof.
  revert prev i. induction s as [|c s IH]; intros prev i; simpl.
  - destruct (match_here prev re EmptyString) eqn:Hm; [|done].
    intros [= <- <-]. by exists prev.
  - destruct (match_here prev re (String c s)) eqn:Hm.
    + intros [= <- <-]. by exists prev.
    + destruct (search_go (Some c) re s) as [[i' n']|] eqn:Hs; [|done].
      intros [= <- <-]. by apply (IH (Some c)).
Qed.

(** A match of a pattern that opens with [\b] and a letter starts
    with that letter, in either case. *)
Lemma match_here_first (prev : option ascii) (c : ascii) (re : list atom)
    (s : string) (n : nat) :
  match_here prev (WordBoundary :: Lit c :: re) s = Some n →
  ∃ d s' n', s = String d s' ∧ n = S n' ∧ same_char c d = true.
Proof.
  simpl. destruct (xorb _ _); [|done].
  destruct s as [|d s']; [done|].
  destruct (same_char c d) eqn:Hcd; [|done].
  destruct (match_here (Some d) re s') as [n'|]; [|done].
  intros [= <-]. by exists d, s', n'.
Qed.

Lemma same_char_lower (c d : ascii) :
  islower_char c = true → same_char c d = true →
  isupper_char d = false → d = c.
Proof.
  unfold same_char, lower_char. intros Hc Heq Hd. rewrite Hd in Heq.
  destruct (isupper_char c) eqn:Hu; [apply upper_not_lower in Hu; congruence|].
  by apply Ascii.eqb_eq in Heq.
Qed.

Lemma phrase_corrections_entries (l : lang) (pattern replacement : string) :
  (pattern, replacement) ∈ phrase_corrections l → table_entry l pattern replacement.
Proof.
  destruct l; simpl; unfold phrase_corrections_en, phrase_corrections_de;
    rewrite ?elem_of_cons, elem_of_nil; intros H;
    repeat (destruct H as [H|H]; [simplify_eq; by repeat eexists|]); done.
Qed.

(** C2 (as the code has it).  Where a pattern of the phrase table
    matches, the matched span is replaced by the table's replacement
    with its case adjusted: with the English table the replacement
    starts in the case of the first letter of the matched span; with
    the German table it starts with an upper-case letter whatever the
    case of the span. *)
Theorem phrase_substitution_case (l : lang) (pattern replacement corrected : string)
    (i n : nat) :
  (pattern, replacement) ∈ phrase_corrections l →
  search pattern corrected = Some (i, n) →
  apply_phrase l corrected (pattern, replacement) =
    take i corrected
      +:+ adjust_case l (group corrected (i, n)) replacement
      +:+ drop (i + n) corrected ∧
  match l with
  | En =>
      first_isupper (adjust_case l (group corrected (i, n)) replacement)
        = first_isupper (group corrected (i, n)) ∧
      first_islower (adjust_case l (group corrected (i, n)) replacement)
        = first_islower (group corrected (i, n))
  | De => first_isupper (adjust_case l (group corrected (i, n)) replacement) = true
  end.
Proof.
  intros Hin Hs. split.
  { unfold apply_phrase, sub1. by rewrite Hs. }
  destruct (phrase_corrections_entries _ _ _ Hin) as (c & re & r & rs & Hre & -> & Hl).
  unfold search in Hs. rewrite Hre in Hs.
  apply search_go_match in Hs as [prev Hm].
  apply match_here_first in Hm as (d & s' & n' & Hd & -> & Hcd).
  unfold group; simpl. rewrite Hd; simpl.
  destruct l; simpl.
  - destruct Hl as (Hc & Hr & Hur).
    destruct (isupper_char d) eqn:Hud; simpl.
    + rewrite Hur. split; [done|].
      rewrite (upper_not_lower _ Hur). symmetry. by apply upper_not_lower.
    + rewrite (same_char_lower c d Hc Hcd Hud), Hc, Hr.
      split; [|done]. apply not_true_iff_false. intros Hu.
      apply upper_not_lower in Hu. congruence.
  - destruct Hl as (Hr & Hur). destruct (isupper_char d); simpl; by rewrite ?Hur.
Qed.

(** *** Phrase substitutions and the number of tokens *)

Lemma take_drop (n : nat) (s : string) : take n s +:+ drop n s = s.
Proof.
  revert s; induction n as [|n IH]; intros [|c s]; try done.
  cbn [take drop]. by rewrite append_cons, IH.
Qed.

Lemma drop_drop (i n : nat) (s : string) : drop (i + n) s = drop n (drop i s).
Proof.
  revert s; induction i as [|i IH]; intros [|c s]; try done.
  - by destruct n.
  - apply IH.
Qed.

Lemma lower_char_space (d : ascii) : lower_char d = " "%char → d = " "%char.
Proof. by destruct d as [[] [] [] [] [] [] [] []]. Qed.

Lemma lower_app (s t : string) : lower (s +:+ t) = lower s +:+ lower t.
Proof. induction s as [|c s IH]; [done|]. rewrite append_cons. simpl. by rewrite IH. Qed.

(** A string that reads as two words with a space between them, case
    apart, is two words with a space between them. *)
Lemma lower_two_words (m p1 p2 : string) :
  lower m = p1 +:+ String " " p2 →
  ∃ t1 t2, m = t1 +:+ String " " t2 ∧ lower t1 = p1 ∧ lower t2 = p2.
Proof.
  revert m; induction p1 as [|c p1 IH]; intros [|d m]; try done.
  - rewrite append_nil_l. intros [= Hd Hm].
    apply lower_char_space in Hd as ->. by exists EmptyString, m.
  - rewrite append_cons. intros [= Hd Hm].
    destruct (IH m Hm) as (t1 & t2 & -> & <- & <-).
    exists (String d t1), t2. by rewrite append_cons, <- Hd.
Qed.

Lemma token_of_lower (t : string) : token (lower t) = true → token t = true.
Proof. unfold token. rewrite blank_free_lower. by destruct t. Qed.

Lemma match_here_boundary (prev : option ascii) (s : string) (n : nat) :
  match_here prev [WordBoundary] s = Some n → n = 0.
Proof. simpl. destruct (xorb _ _); [|done]. by intros [= <-]. Qed.

(** What a pattern of literal characters matches reads as the pattern,
    case apart. *)
Lemma match_here_literal (p : string) (rest : list atom) (prev : option ascii)
    (s : string) (n : nat) :
  match_here prev (literal p ++ rest) s = Some n →
  ∃ prev' n',
    lower (take (String.length p) s) = lower p ∧
    match_here prev' rest (drop (String.length p) s) = Some n' ∧
    n = String.length p + n'.
Proof.
  revert prev s n. induction p as [|c p IH]; intros prev s n.
  - intros H. by exists prev, n.
  - cbn [literal app match_here]. destruct s as [|d s]; [done|].
    destruct (same_char c d) eqn:Hcd; [|done].
    destruct (match_here (Some d) (literal p ++ rest) s) as [m|] eqn:Hm; [|done].
    intros [= <-]. destruct (IH _ _ _ Hm) as (prev' & n' & Hl & Hr & ->).
    exists prev', n'. cbn [String.length take drop lower].
    apply Ascii.eqb_eq in Hcd. by rewrite Hl, Hcd.
Qed.

Lemma upper_first_app (r1 r2 : string) :
  token r1 = true → upper_first (r1 +:+ r2) = upper_first r1 +:+ r2.
Proof. by destruct r1. Qed.

(** The entries of the English table put two words for two words. *)
Lemma phrase_corrections_en_two_words :
  Forall (λ entry, two_words entry.1 entry.2) phrase_corrections_en.
Proof.
  unfold phrase_corrections_en. repeat constructor.
  - by exists "bachelor", "thesis", "bachelor's", "thesis".
  - by exists "master", "thesis", "master's", "thesis".
  - by exists "bachelor", "theses", "bachelor's", "theses".
  - by exists "master", "theses", "master's", "theses".
  - by exists "doctor", "thesis", "doctoral", "thesis".
Qed.

Lemma apply_phrase_two_words (l : lang) (corrected pattern replacement : string) :
  two_words pattern replacement →
  length (split (apply_phrase l corrected (pattern, replacement)))
    = length (split corrected).
Proof.
  intros (p1 & p2 & r1 & r2 & Hre & Hlow & -> & Hp1 & Hp2 & Hr1 & Hur1 & Hr2).
  unfold apply_phrase, sub1.
  destruct (search pattern corrected) as [[i n]|] eqn:Hs; [|done].
  unfold search in Hs. rewrite Hre in Hs.
  apply search_go_match in Hs as [prev Hm].
  cbn [match_here] in Hm. destruct (xorb _ _); [|done].
  apply match_here_literal in Hm as (prev' & n' & Hl & Hend & ->).
  apply match_here_boundary in Hend as ->. rewrite Nat.add_0_r in *.
  rewrite Hlow in Hl. apply lower_two_words in Hl as (t1 & t2 & Hm & Ht1 & Ht2).
  unfold group; cbn [fst snd]. rewrite Hm.
  assert (Hparts : corrected =
    take i corrected +:+ (t1 +:+ String " " t2)
      +:+ drop (i + String.length (p1 +:+ String " " p2)) corrected).
  { by rewrite drop_drop, <- Hm, !take_drop. }
  set (a := take i corrected) in *.
  set (b := drop (i + String.length (p1 +:+ String " " p2)) corrected) in *.
  clearbody a b. rewrite Hparts. clear Hparts.
  assert (Hrepl : ∃ r1', token r1' = true ∧
    adjust_case l (t1 +:+ String " " t2) (r1 +:+ String " " r2) = r1' +:+ String " " r2).
  { destruct l; cbn [adjust_case]; destruct (first_isupper _);
      rewrite ?upper_first_app by done; eauto. }
  destruct Hrepl as (r1' & Hr1' & ->).
  apply count_two_tokens; try done.
  - apply token_of_lower. by rewrite Ht1.
  - apply token_of_lower. by rewrite Ht2.
Qed.

(** The English phrase substitutions keep the number of tokens. *)
Lemma english_phrases_keep_count (message : string) :
  length (split (apply_phrases En message)) = length (split message).
Proof.
  unfold apply_phrases. cbn [phrase_corrections].
  pose proof phrase_corrections_en_two_words as Htable.
  revert message. induction Htable as [|[pattern replacement] table Hentry _ IH];
    intros message; [done|].
  cbn [fold_left]. rewrite IH. by apply apply_phrase_two_words.
Qed.

(** *** The per-token pass *)


Section Message.

Context (detect : string → option string) (spell_en spell_de : SpellChecker).

Local Abbreviation check message := (spell_check_message detect message spell_en spell_de).
Local Abbreviation lang_of := (detect_language detect).
Local Abbreviation spell_of message := (spell_for (lang_of message) spell_en spell_de).




(** C9 (as the code has it).  With a dictionary that corrects to single
    words, the tokens of the output are the words the loop appended,
    one for each token of the message after the phrase substitutions;
    this is the number of tokens of the input when the language is
    English or no pattern of the phrase table matches. *)
Theorem token_count (message : string) :
  corrects_to_words (spell_of message) →
  split (check message) =
    imap (process_word (lang_of message) (spell_of message))
      (split (apply_phrases (lang_of message) message)) ∧
  length (split (check message)) =
    length (split (apply_phrases (lang_of message) message)) ∧
  (lang_of message = En ∨ no_phrase_match (lang_of message) message = true →
   length (split (check message)) = length (split message)).
Proof.
  intros Hspell.
  assert (Hsplit : split (check message) =
    imap (process_word (lang_of message) (spell_of message))
      (split (apply_phrases (lang_of message) message))).
  { unfold spell_check_message. apply split_join, imap_tokens; [|apply split_tokens].
    intros i w. by apply process_word_token. }
  split; [done|]. rewrite Hsplit, length_imap. split; [done|].
  intros [Hen|Hp]; [|by rewrite apply_phrases_no_match].
  rewrite Hen. apply english_phrases_keep_count.
Qed.

End Message.

End CorrectorFacts.

(** *** Runs of the corrector *)

Section CorrectorRuns.
Import PyStr PyRe FixCommits CorrectorSpec BatchSamples.

Lemma dictionary_corrects_to_words : corrects_to_words dictionary.
Proof.
  intros w c H.
  change (snd <$> (if String.eqb "x" w then Some ("x", "a") else None) = Some c) in H.
  destruct (String.eqb "x" w); by simplify_eq/=.
Qed.

(** German, the phrase in lower case: the replacement is capitalized. *)
Lemma german_phrase_is_capitalized :
  search "\bBachelor Thesis\b" "die bachelor thesis" = Some (4, 15) ∧
  group "die bachelor thesis" (4, 15) = "bachelor thesis" ∧
  first_islower (group "die bachelor thesis" (4, 15)) = true ∧
  adjust_case De (group "die bachelor thesis" (4, 15)) "Bachelorarbeit" = "Bachelorarbeit" ∧
  first_isupper (adjust_case De (group "die bachelor thesis" (4, 15)) "Bachelorarbeit") = true ∧
  apply_phrases De "die bachelor thesis" = "die Bachelorarbeit" ∧
  spell_check_message german "die bachelor thesis" dictionary dictionary
    = "Die Bachelorarbeit".
Proof. vm_compute. done. Qed.

Lemma phrase_substitution_case_witness :
  ("\bbachelor thesis\b", "bachelor's thesis") ∈ phrase_corrections En ∧
  search "\bbachelor thesis\b" "Write Bachelor thesis" = Some (6, 15) ∧
  apply_phrase En "Write Bachelor thesis" ("\bbachelor thesis\b", "bachelor's thesis")
    = "Write Bachelor's thesis" ∧
  first_isupper (adjust_case En (group "Write Bachelor thesis" (6, 15)) "bachelor's thesis")
    = first_isupper (group "Write Bachelor thesis" (6, 15)).
Proof.
  assert (Hin : ("\bbachelor thesis\b", "bachelor's thesis") ∈ phrase_corrections En)
    by apply list_elem_of_here.
  assert (Hs : search "\bbachelor thesis\b" "Write Bachelor thesis" = Some (6, 15))
    by (vm_compute; reflexivity).
  destruct (phrase_substitution_case En _ _ _ _ _ Hin Hs) as [Happ [Hup _]].
  split; [exact Hin|]. split; [exact Hs|]. split; [|exact Hup].
  rewrite Happ. vm_compute. reflexivity.
Defined.







(** German: the phrase substitution makes one token of two. *)
Lemma german_phrase_merges_tokens :
  length (split "Die Bachelor Thesis") = 3 ∧
  spell_check_message german "Die Bachelor Thesis" dictionary dictionary
    = "Die Bachelorarbeit" ∧
  length (split (spell_check_message german "Die Bachelor Thesis" dictionary dictionary)) = 2.
Proof. vm_compute. done. Qed.

Lemma token_count_witness :
  length (split (spell_check_message no_detection "fix bachelor thesis  teh X"
                   dictionary dictionary))
    = length (split "fix bachelor thesis  teh X").
Proof.
  destruct (token_count no_detection dictionary dictionary "fix bachelor thesis  teh X")
    as (_ & _ & H); [exact dictionary_corrects_to_words|].
  apply H. left. vm_compute. reflexivity.
Defined.

End CorrectorRuns.

(** ** Commit-message corrector: review, rewrite and exit *)

Section BatchFacts.
Import PyStr Console FixCommits BatchSpec BatchSamples Samples.

Lemma bind_run {E A B} (m : M E A) (k : A → M E B) (stdin : list string) :
  (m ≫= k) stdin =
    match m stdin with
    | (out, Done a stdin') => ((out ++ (k a stdin').1), (k a stdin').2)
    | (out, Raised e) => (out, Raised e)
    | (out, Exited code) => (out, Exited code)
    end.
Proof.
  unfold mbind, M_bind, bind.
  destruct (m stdin) as [out [a stdin'|e|code]]; try done.
  by destruct (k a stdin').
Qed.


Lemma get_user_choice_quiet (original suggested : string) (stdin : list string) :
  quiet (get_user_choice_for_commit original suggested stdin).
Proof.
  assert (H : ∀ n stdin, length stdin ≤ n →
              quiet (get_user_choice_for_commit original suggested stdin)).
  { clear stdin. induction n as [|n IH]; intros [|line rest] Hlen; simpl in *;
      try done; try lia.
    repeat (case_match; simpl; try done); apply IH; simpl in *; lia. }
  by apply (H (length stdin)).
Qed.

(** The review loop makes no git call, and its trace shows the abort
    exactly when it ends with one. *)
Lemma review_spec (changes commit_changes : list change) (stdin : list string) :
  rewrites (review changes commit_changes stdin).1 = [] ∧
  match (review changes commit_changes stdin).2 with
  | Done None _ => user_aborted (review changes commit_changes stdin).1 = true
  | Done (Some _) _ => user_aborted (review changes commit_changes stdin).1 = false
  | Raised e => e = EOFError ∧ user_aborted (review changes commit_changes stdin).1 = false
  | Exited _ => False
  end.
Proof.
  revert commit_changes stdin.
  induction changes as [|[[commit_hash original] suggested] changes IH];
    intros commit_changes stdin; [done|].
  cbn [review]. rewrite bind_run.
  pose proof (get_user_choice_quiet original suggested stdin) as Hq.
  destruct (get_user_choice_for_commit original suggested stdin)
    as [[act new_message] stdin'|e|code]; simpl in *; [|by subst|done].
  destruct act; simpl.
  - destruct (negb (String.eqb new_message original)); [|apply IH].
    rewrite bind_run; simpl.
    specialize (IH (commit_changes ++ [(commit_hash, original, new_message)]) stdin').
    destruct IH as [IH1 IH2]. split; [done|].
    destruct (review changes _ stdin').2 as [[?|] ?|?|?]; done.
  - rewrite bind_run; simpl.
    specialize (IH commit_changes stdin').
    destruct IH as [IH1 IH2]. split; [done|].
    destruct (review changes _ stdin').2 as [[?|] ?|?|?]; done.
  - apply IH.
  - done.
Qed.

Lemma rewrite_commits_quiet (repo : Repo) (commit_changes : list change)
    (stdin : list string) :
  quiet (rewrite_commits_with_script repo commit_changes stdin).2 ∧
  user_aborted (rewrite_commits_with_script repo commit_changes stdin).1 = false.
Proof.
  unfold rewrite_commits_with_script. rewrite bind_run; simpl.
  destruct (filter_branch_ok repo); done.
Qed.

(** [rewrite_history] ends quietly; when its trace shows the user's
    abort it has made no git call and returns [False] with the
    repository as it was. *)
Lemma rewrite_history_spec (repo : Repo) (changes : list change) (stdin : list string) :
  quiet (rewrite_history repo changes stdin).2 ∧
  (user_aborted (rewrite_history repo changes stdin).1 = true →
   rewrites (rewrite_history repo changes stdin).1 = [] ∧
   ∃ stdin', (rewrite_history repo changes stdin).2 = Done (false, repo) stdin').
Proof.
  destruct changes as [|c changes]; [done|].
  pose proof (review_spec (c :: changes) [] stdin) as [Hrw Hres].
  unfold rewrite_history.
  set (rv := review (c :: changes) []) in *. clearbody rv.
  rewrite bind_run; simpl. rewrite bind_run.
  destruct (rv stdin) as [out [[commit_changes|] stdin'|e|code]];
    simpl in *; [| |destruct Hres as [-> Hres]; split; [done|congruence]|done].
  - unfold user_aborted in *.
    destruct commit_changes as [|c' commit_changes].
    { simpl. rewrite existsb_app, Hres. done. }
    pose proof (rewrite_commits_quiet repo (c' :: commit_changes)) as Hgit.
    set (git := rewrite_commits_with_script repo (c' :: commit_changes)) in *.
    clearbody git.
    rewrite bind_run; simpl. rewrite bind_run.
    destruct stdin' as [|final_confirm stdin']; simpl.
    { rewrite existsb_app, Hres. done. }
    destruct (negb (String.eqb (lower (strip_blank final_confirm)) "yes")); simpl.
    { rewrite existsb_app, Hres. done. }
    rewrite bind_run; simpl. rewrite bind_run.
    destruct (Hgit stdin') as [Hq Hab]. unfold user_aborted in Hab.
    destruct (git stdin') as [out' [[[] repo'] stdin''|e|code]]; simpl in *;
      rewrite !existsb_app, Hres; simpl; rewrite ?existsb_app, ?Hab; done.
  - split; [done|]. intros _. unfold rewrites in *.
    rewrite app_nil_r. split; [done|]. by exists stdin'.
Qed.

Section Batch.

Context (langdetect_detect : string → option string) (spell_en spell_de : SpellChecker).

Local Abbreviation process_repository :=
  (process_repository langdetect_detect spell_en spell_de).
Local Abbreviation process_all := (process_all langdetect_detect spell_en spell_de).
Local Abbreviation main := (main langdetect_detect spell_en spell_de).

Lemma process_repository_spec (repo : Repo) (stdin : list string) :
  quiet (process_repository repo stdin).2 ∧
  (user_aborted (process_repository repo stdin).1 = true →
   rewrites (process_repository repo stdin).1 = [] ∧
   ∃ stdin', (process_repository repo stdin).2
               = Done (skipped "user declined", repo) stdin').
Proof.
  unfold FixCommits.process_repository.
  set (changes := preview_changes _ _ _ _). clearbody changes.
  rewrite bind_run; simpl.
  destruct (negb (clean repo)); [done|].
  destruct (commits repo) as [|c cs]; [done|].
  rewrite bind_run; simpl.
  destruct changes as [|ch changes]; [done|].
  pose proof (rewrite_history_spec repo (ch :: changes) stdin) as [Hq Hab].
  set (rh := rewrite_history repo (ch :: changes)) in *. clearbody rh.
  rewrite bind_run.
  destruct (rh stdin) as [out [[[] repo'] stdin'|e|code]]; simpl in *; try done.
  - split; [done|]. rewrite app_nil_r. intros H.
    by destruct (Hab H) as (_ & ? & ?).
  - split; [done|]. rewrite app_nil_r. intros H.
    destruct (Hab H) as (? & ? & ?). simplify_eq. eauto.
  - split; [done|]. intros H. by destruct (Hab H) as (_ & ? & ?).
Qed.


(** The batch goes on after a repository: its trace is the trace of the
    first repository followed by that of the others on the input that is
    left. *)
Lemma process_all_cons (repo : Repo) (repos : list Repo) (stdin : list string) :
  ∀ st repo' stdin',
    (process_repository repo stdin).2 = Done (st, repo') stdin' →
    (process_all (repo :: repos) stdin).1 =
      (process_repository repo stdin).1 ++ (process_all repos stdin').1 ∧
    match (process_all repos stdin').2 with
    | Done (results, after) stdin'' =>
        (process_all (repo :: repos) stdin).2 =
          Done ((repo_name repo, st) :: results, repo' :: after) stdin''
    | Raised e => (process_all (repo :: repos) stdin).2 = Raised e
    | Exited code => (process_all (repo :: repos) stdin).2 = Exited code
    end.
Proof.
  intros st repo' stdin' Hrun.
  cbn [FixCommits.process_all]. rewrite bind_run.
  destruct (process_repository repo stdin) as [out r]; simpl in *; subst r.
  rewrite bind_run.
  destruct (process_all repos stdin') as [out' [[results after] stdin''|e|code]];
    simpl; rewrite ?app_nil_r; done.
Qed.

(** C1 (as the code has it).  When the user aborts at a prompt of a
    repository, [rewrite_commits_with_script] is not called for that
    repository, whatever was accepted before, the repository is left as
    it was and reported as skipped; the batch then goes on with the
    repositories that follow, on the input that is left. *)
Theorem abort_skips_repository (repo : Repo) (repos : list Repo) (stdin : list string) :
  user_aborted (process_repository repo stdin).1 = true →
  rewrites (process_repository repo stdin).1 = [] ∧
  ∃ stdin',
    (process_repository repo stdin).2 = Done (skipped "user declined", repo) stdin' ∧
    (process_all (repo :: repos) stdin).1 =
      (process_repository repo stdin).1 ++ (process_all repos stdin').1.
Proof.
  intros Hab.
  destruct (process_repository_spec repo stdin) as [_ H].
  destruct (H Hab) as (Hrw & stdin' & Hrun).
  split; [done|]. exists stdin'. split; [done|].
  by destruct (process_all_cons repo repos stdin _ _ _ Hrun).
Qed.


End Batch.


End BatchFacts.

(** A run of the corrector on two repositories: the user aborts in the
    first and accepts in the second. *)
Lemma abort_does_not_halt_batch :
  FixCommits.main BatchSamples.no_detection BatchSamples.dictionary BatchSamples.dictionary
    ["fix_commits.py"; "/git"] (λ _, true)
    (λ _, [BatchSamples.first_repo; BatchSamples.second_repo]) ["a"; "y"; "yes"]
  = ([ FixCommits.Found_repositories ["first"; "second"];
       FixCommits.Repository "first"; FixCommits.Found_commits 1;
       FixCommits.Found_corrections 1; FixCommits.Aborted_by_user;
       FixCommits.Repository "second"; FixCommits.Found_commits 2;
       FixCommits.Found_corrections 1; FixCommits.Will_change "Fix bug";
       FixCommits.Summary [("b1", "fix bug", "Fix bug")]; FixCommits.Rewriting;
       FixCommits.Filter_branch "second" [("b1", "fix bug", "Fix bug")];
       FixCommits.Rewritten;
       FixCommits.Final_summary
         [("first", FixCommits.skipped "user declined"); ("second", FixCommits.corrected 1)] ],
     Console.Done
       [ BatchSamples.first_repo;
         {| FixCommits.repo_name := "second"; FixCommits.clean := true;
            FixCommits.commits := [("b1", "Fix bug"); ("b2", "Add test")];
            FixCommits.filter_branch_ok := true |} ]
       []).
Proof. vm_compute. reflexivity. Qed.

Lemma abort_skips_repository_witness :
  BatchSpec.user_aborted
    (FixCommits.process_repository BatchSamples.no_detection BatchSamples.dictionary
       BatchSamples.dictionary BatchSamples.first_repo ["a"; "y"; "yes"]).1 = true ∧
  BatchSpec.rewrites
    (FixCommits.process_repository BatchSamples.no_detection BatchSamples.dictionary
       BatchSamples.dictionary BatchSamples.first_repo ["a"; "y"; "yes"]).1 = [].
Proof.
  split; [vm_compute; reflexivity|].
  apply (abort_skips_repository BatchSamples.no_detection BatchSamples.dictionary
           BatchSamples.dictionary BatchSamples.first_repo [BatchSamples.second_repo]
           ["a"; "y"; "yes"]).
  vm_compute; reflexivity.
Defined.


(** ** Timeline summarizer *)

Section MonthlyActivityFacts.
Import PyStr Console MonthlyActivity TimelineSpec.

Context (float_of_string : string → option float).

Local Abbreviation record := (record float_of_string).
Local Abbreviation value_of := (value_of float_of_string).
Local Abbreviation number := (number float_of_string).
Local Abbreviation add_row := (add_row float_of_string).
Local Abbreviation add_rows := (add_rows float_of_string).

Lemma number_value (key : string) (r : row) :
  numeric float_of_string key r = true → number r key = inr (value_of key r).
Proof.
  unfold numeric, number, value_of, field.
  destruct (r !! key) as [[text|]|]; simpl; try done.
  destruct (String.eqb text EmptyString); simpl; [done|].
  intros [x Hx]%bool_decide_eq_true. by rewrite Hx.
Qed.

(** A record is added to the bucket of its month: appended to its
    activities, its two numbers added to the two sums; no other bucket
    is touched. *)
Lemma add_row_record (md : gmap string bucket) (r : row) :
  record r = true →
  ∃ month b,
    month_of r = Some month ∧
    add_row md r = inr (<[month := b]> md) ∧
    activities b = activities (default new_bucket (md !! month)) ++ [r] ∧
    total_distance b =
      (total_distance (default new_bucket (md !! month)) + value_of "distance_meters" r)%float ∧
    total_duration b =
      (total_duration (default new_bucket (md !! month)) + value_of "duration_seconds" r)%float.
Proof.
  unfold record. rewrite !andb_true_iff, !bool_decide_eq_true.
  intros [[[[[month Hm] [rt Hrt]] [at_ Hat]] Hd] Hu].
  exists month. unfold add_row, month_of, field in *.
  destruct (r !! "timestamp") as [[ts|]|]; simplify_eq/=.
  rewrite Hrt; simpl.
  rewrite (number_value _ _ Hd), (number_value _ _ Hu); simpl.
  rewrite Hat; simpl.
  repeat case_bool_decide; eexists; (split; [done|]); (split; [done|]); done.
Qed.

Lemma add_rows_records (rows : list row) (md0 : gmap string bucket) :
  forallb record rows = true →
  ∃ md, add_rows md0 rows = inr md ∧
    ∀ month,
      let rs := records_of month rows in
      activities (bucket_at md month) = activities (bucket_at md0 month) ++ rs ∧
      total_distance (bucket_at md month) =
        fold_left (λ acc r, (acc + value_of "distance_meters" r)%float) rs
          (total_distance (bucket_at md0 month)) ∧
      total_duration (bucket_at md month) =
        fold_left (λ acc r, (acc + value_of "duration_seconds" r)%float) rs
          (total_duration (bucket_at md0 month)) ∧
      (md !! month = None ↔ md0 !! month = None ∧ rs = []).
Proof.
  revert md0; induction rows as [|r rows IH]; intros md0 Hall; simpl in *.
  - exists md0. split; [done|]. intros month; simpl.
    rewrite app_nil_r. split_and!; try done. split; [by intros ?|by intros [? _]].
  - apply andb_true_iff in Hall as [Hr Hall].
    destruct (add_row_record md0 r Hr) as (m & b & Hm & -> & Hact & Hdist & Hdur); simpl.
    destruct (IH (<[m := b]> md0) Hall) as (md & -> & Hmd).
    exists md. split; [done|]. intros month.
    destruct (Hmd month) as (Ha & Hd & Hu & Hn). unfold records_of in *.
    unfold bucket_at in *.
    destruct (decide (m = month)) as [->|Hne].
    + rewrite lookup_insert_eq in Ha, Hd, Hu, Hn; simpl in *.
      rewrite filter_cons_True by done. simpl.
      rewrite Ha, Hd, Hu, Hact, Hdist, Hdur, <- app_assoc. simpl.
      split_and!; try done.
      split; [intros [? _]%Hn; done|intros [_ ?]; done].
    + rewrite lookup_insert_ne in Ha, Hd, Hu, Hn by done.
      rewrite filter_cons_False by congruence. done.
Qed.

(** C6.  On the records of a timeline file [parse_timeline_by_month]
    returns a map in which every record sits in the bucket named by the
    first seven characters of its timestamp ("2025-06" for
    "2025-06-15T10:00:00"); a month has a bucket exactly when it has
    records, the bucket lists exactly these records, and its
    [total_distance] ([total_duration]) is the sum of their
    [distance_meters] ([duration_seconds]) taken from 0.0 in file
    order, an empty or absent field counting 0.0. *)
Theorem parse_timeline_by_month_buckets (rows : list row) :
  forallb record rows = true →
  ∃ monthly_data,
    parse_timeline_by_month float_of_string rows = inr monthly_data ∧
    (∀ r timestamp, r ∈ rows → r !! "timestamp" = Some (Some timestamp) →
       ∃ b, monthly_data !! take 7 timestamp = Some b ∧ r ∈ activities b) ∧
    take 7 "2025-06-15T10:00:00" = "2025-06" ∧
    ∀ month,
      match monthly_data !! month with
      | Some b =>
          records_of month rows ≠ [] ∧
          activities b = records_of month rows ∧
          total_distance b = total float_of_string "distance_meters" (records_of month rows) ∧
          total_duration b = total float_of_string "duration_seconds" (records_of month rows)
      | None => records_of month rows = []
      end.
Proof.
  intros Hall. unfold parse_timeline_by_month.
  destruct (add_rows_records rows ∅ Hall) as (md & Hmd & Hb).
  exists md. split; [done|].
  assert (Hmonth : ∀ month,
    match md !! month with
    | Some b =>
        records_of month rows ≠ [] ∧
        activities b = records_of month rows ∧
        total_distance b = total float_of_string "distance_meters" (records_of month rows) ∧
        total_duration b = total float_of_string "duration_seconds" (records_of month rows)
    | None => records_of month rows = []
    end).
  { intros month. destruct (Hb month) as (Ha & Hd & Hu & Hn).
    unfold bucket_at in *. rewrite lookup_empty in *; simpl in *.
    destruct (md !! month) as [b|] eqn:Hlk; simpl in *.
    - split_and!; try done. intros Hnil. destruct Hn as [_ Hn].
      by discriminate Hn.
    - by apply Hn. }
  split; [|split; [done|exact Hmonth]].
  intros r ts Hin Hts.
  assert (Hrec : r ∈ records_of (take 7 ts) rows).
  { apply list_elem_of_filter. split; [|done]. unfold month_of. by rewrite Hts. }
  specialize (Hmonth (take 7 ts)).
  destruct (md !! take 7 ts) as [b|].
  - exists b. split; [done|]. destruct Hmonth as (_ & -> & _). done.
  - rewrite Hmonth in Hrec. by apply elem_of_nil in Hrec.
Qed.

End MonthlyActivityFacts.

Lemma parse_timeline_by_month_buckets_witness :
  forallb (TimelineSpec.record Samples.float_of_digits) Samples.timeline = true ∧
  ∃ monthly_data,
    MonthlyActivity.parse_timeline_by_month Samples.float_of_digits Samples.timeline
      = inr monthly_data ∧
    ∃ b, monthly_data !! "2025-06" = Some b ∧
         MonthlyActivity.total_distance b = 1500%float ∧
         length (MonthlyActivity.activities b) = 2.
Proof.
  split; [vm_compute; reflexivity|].
  destruct (parse_timeline_by_month_buckets Samples.float_of_digits Samples.timeline)
    as (md & Hmd & _ & _ & Hb); [vm_compute; reflexivity|].
  exists md. split; [done|].
  specialize (Hb "2025-06").
  destruct (md !! "2025-06") as [b|]; [|vm_compute in Hb; discriminate].
  exists b. split; [done|]. destruct Hb as (_ & -> & -> & _). vm_compute. done.
Defined.

(** ** Folder differ *)

Section MusicDiffFacts.
Import PyStr MusicDiff.

Lemma strip_prefix_app (pre rel : list string) :
  strip_prefix pre (pre ++ rel) = Some rel.
Proof.
  induction pre as [|a pre IH]; simpl; [done|].
  by rewrite String.eqb_refl.
Qed.

Lemma relative_to_joinpath (folder : Path) (rel : list string) :
  relative_to (joinpath folder rel) folder = Some {| anchor := EmptyString; parts := rel |}.
Proof.
  unfold relative_to, joinpath; simpl.
  by rewrite String.eqb_refl, strip_prefix_app.
Qed.

(** What one turn of the scan loop does to the map. *)
Lemma add_file_spec (extensions : list string) (folder : Path)
    (m : gmap string string) (rel : list string) (is_file : bool) :
  add_file extensions folder m (rel, is_file) =
    if is_file && bool_decide (lower (suffix (joinpath folder rel)) ∈ extensions)
    then <[str {| anchor := EmptyString; parts := rel |} := str (joinpath folder rel)]> m
    else m.
Proof.
  unfold add_file; simpl.
  destruct (is_file && _); [|done].
  by rewrite relative_to_joinpath.
Qed.

Lemma scan_keeps (extensions : list string) (folder : Path)
    (l : list (list string * bool)) (m : gmap string string) (k : string) :
  is_Some (m !! k) → is_Some (fold_left (add_file extensions folder) l m !! k).
Proof.
  revert m; induction l as [|[rel f] l IH]; intros m Hm; simpl; [done|].
  apply IH. rewrite add_file_spec.
  destruct (f && _); [|done].
  rewrite lookup_insert. case_decide; eauto.
Qed.

Lemma scan_sound (extensions : list string) (folder : Path)
    (l : list (list string * bool)) (m : gmap string string) (k v : string) :
  fold_left (add_file extensions folder) l m !! k = Some v →
  m !! k = Some v ∨
  ∃ rel, (rel, true) ∈ l ∧ lower (suffix (joinpath folder rel)) ∈ extensions ∧
         k = str {| anchor := EmptyString; parts := rel |} ∧
         v = str (joinpath folder rel).
Proof.
  revert m; induction l as [|[rel f] l IH]; intros m Hk; simpl in *; [by left|].
  apply IH in Hk as [Hk | (rel' & Hin & Hext & -> & ->)].
  - rewrite add_file_spec in Hk.
    destruct f; simpl in Hk; [|by left].
    case_bool_decide as Hext; [|by left].
    rewrite lookup_insert in Hk. case_decide as Hkey; [|by left].
    right. exists rel. simplify_eq. split_and!; [apply list_elem_of_here|done..].
  - right. exists rel'. split_and!; [by apply list_elem_of_further|done..].
Qed.

Lemma scan_complete (extensions : list string) (folder : Path)
    (l : list (list string * bool)) (m : gmap string string) (rel : list string) :
  (rel, true) ∈ l → lower (suffix (joinpath folder rel)) ∈ extensions →
  is_Some (fold_left (add_file extensions folder) l m
             !! str {| anchor := EmptyString; parts := rel |}).
Proof.
  revert m; induction l as [|[rel' f] l IH]; intros m Hin Hext.
  - by apply elem_of_nil in Hin.
  - apply elem_of_cons in Hin as [Heq | Hin]; simpl.
    + simplify_eq. apply scan_keeps. rewrite add_file_spec; simpl.
      rewrite bool_decide_eq_true_2 by done.
      rewrite lookup_insert_eq. eauto.
    + by apply IH.
Qed.

(** C10.  The extension test of [get_music_files] is made on the
    lower-cased suffix, so [.MP3] passes for [.mp3]; every entry of the
    returned map has as key the path of a regular file relative to the
    scanned folder and as value the path of that file under the folder,
    and every regular file the scan yields with such a suffix has an
    entry. *)
Theorem get_music_files_entries (fs : FileSystem) (folder_path : string)
    (extensions : list string) :
  lower (suffix {| anchor := "/"; parts := ["Music"; "Song.MP3"] |}) ∈ default_extensions ∧
  match scanned_root fs folder_path with
  | Some folder =>
      (∀ k v, get_music_files fs folder_path extensions !! k = Some v →
         ∃ rel, (rel, true) ∈ rglob fs folder ∧
                lower (suffix (joinpath folder rel)) ∈ extensions ∧
                k = str {| anchor := EmptyString; parts := rel |} ∧
                v = str (joinpath folder rel)) ∧
      (∀ rel, (rel, true) ∈ rglob fs folder →
         lower (suffix (joinpath folder rel)) ∈ extensions →
         is_Some (get_music_files fs folder_path extensions
                    !! str {| anchor := EmptyString; parts := rel |}))
  | None => get_music_files fs folder_path extensions = ∅
  end.
Proof.
  split.
  { vm_compute. apply list_elem_of_here. }
  unfold get_music_files.
  destruct (scanned_root fs folder_path) as [folder|]; [|done].
  split.
  - intros k v Hk. apply scan_sound in Hk as [Hk | Hk]; [|done].
    by rewrite lookup_empty in Hk.
  - intros rel Hin Hext. by apply scan_complete.
Qed.

(** C7.  The sets "only in 1", "only in 2" and "in both" that
    [compare_folders] computes from the key sets of the two maps are
    pairwise disjoint and their union is the union of the two key
    sets. *)
Theorem compare_folders_partition (files1 files2 : gmap string string) :
  only_in_1 files1 files2 ## only_in_2 files1 files2 ∧
  only_in_1 files1 files2 ## in_both files1 files2 ∧
  only_in_2 files1 files2 ## in_both files1 files2 ∧
  only_in_1 files1 files2 ∪ only_in_2 files1 files2 ∪ in_both files1 files2
    = dom files1 ∪ dom files2.
Proof.
  unfold only_in_1, only_in_2, in_both.
  split_and!.
  - intros x [_ Hx]%elem_of_difference [Hx' _]%elem_of_difference. done.
  - intros x [_ Hx]%elem_of_difference [_ Hx']%elem_of_intersection. done.
  - intros x [_ Hx]%elem_of_difference [Hx' _]%elem_of_intersection. done.
  - apply set_eq; intros x.
    rewrite !elem_of_union, !elem_of_difference, elem_of_intersection.
    destruct (decide (x ∈ dom files1)), (decide (x ∈ dom files2)); tauto.
Qed.

End MusicDiffFacts.

(** ** Strings: stripping and replacing *)

Section StripFacts.
Import PyStr.

Lemma lstrip_fixed (p : ascii → bool) (s : string) :
  match s with String c _ => p c = false | EmptyString => True end →
  lstrip_by p s = s.
Proof. destruct s as [|c s]; [done|]. simpl. by intros ->. Qed.

Lemma lstrip_length (p : ascii → bool) (s : string) :
  String.length (lstrip_by p s) ≤ String.length s.
Proof. induction s as [|c s IH]; [done|]. simpl. destruct (p c); simpl; lia. Qed.

Lemma lstrip_fixed_first (p : ascii → bool) (c : ascii) (s : string) :
  lstrip_by p (String c s) = String c s → p c = false.
Proof.
  simpl. destruct (p c); [|done]. intros H.
  pose proof (lstrip_length p s) as Hlen. rewrite H in Hlen. simpl in Hlen. lia.
Qed.

Lemma rstrip_all (p : ascii → bool) (t : string) :
  any_char (λ c, negb (p c)) t = false → rstrip_by p t = EmptyString.
Proof.
  induction t as [|c t IH]; [done|]. cbn [any_char rstrip_by].
  intros [Hc Ht]%orb_false_iff. rewrite (IH Ht).
  apply negb_false_iff in Hc. by rewrite Hc.
Qed.

Lemma rstrip_app_blank (p : ascii → bool) (s t : string) :
  any_char (λ c, negb (p c)) t = false → rstrip_by p (s +:+ t) = rstrip_by p s.
Proof.
  intros Ht. induction s as [|c s IH].
  - rewrite append_nil_l. by apply rstrip_all.
  - rewrite append_cons. cbn [rstrip_by]. by rewrite IH.
Qed.


Lemma lstrip_frame (p : ascii → bool) (s : string) :
  ∃ pre, s = pre +:+ lstrip_by p s ∧ any_char (λ c, negb (p c)) pre = false.
Proof.
  induction s as [|a s (pre & Hs & Hpre)]; [by exists EmptyString|].
  simpl. destruct (p a) eqn:Hp.
  - exists (String a pre). rewrite append_cons, <- Hs. split; [done|].
    simpl. by rewrite Hp.
  - by exists EmptyString.
Qed.

Lemma rstrip_frame (p : ascii → bool) (s : string) :
  ∃ post, s = rstrip_by p s +:+ post ∧ any_char (λ c, negb (p c)) post = false.
Proof.
  induction s as [|a s (post & Hs & Hpost)]; [by exists EmptyString|].
  cbn [rstrip_by]. destruct (rstrip_by p s) as [|d r] eqn:Hr.
  - rewrite append_nil_l in Hs. subst post. destruct (p a) eqn:Hp.
    + exists (String a s). split; [done|]. simpl. by rewrite Hp.
    + by exists s.
  - exists post. by rewrite append_cons, <- Hs.
Qed.

Lemma rstrip_rstrip (p : ascii → bool) (s : string) :
  rstrip_by p (rstrip_by p s) = rstrip_by p s.
Proof.
  induction s as [|a s IH]; [done|]. cbn [rstrip_by].
  destruct (rstrip_by p s) as [|d r] eqn:Hr.
  - destruct (p a) eqn:Hp; [done|]. simpl. by rewrite Hp.
  - cbn [rstrip_by] in *. by rewrite IH.
Qed.

Lemma lstrip_first (p : ascii → bool) (s : string) (c : ascii) (t : string) :
  lstrip_by p s = String c t → p c = false.
Proof.
  induction s as [|a s IH]; [done|]. simpl.
  destruct (p a) eqn:Hp; [done|]. by intros [= <- <-].
Qed.

Lemma rstrip_first (p : ascii → bool) (c : ascii) (t : string) :
  rstrip_by p (String c t) = EmptyString ∨ ∃ r, rstrip_by p (String c t) = String c r.
Proof.
  cbn [rstrip_by]. destruct (rstrip_by p t); [destruct (p c)|]; eauto.
Qed.

Lemma lstrip_all (p : ascii → bool) (s : string) :
  any_char (λ c, negb (p c)) s = false → lstrip_by p s = EmptyString.
Proof.
  induction s as [|a s IH]; [done|]. simpl.
  intros [Ha Hs]%orb_false_iff. apply negb_false_iff in Ha. rewrite Ha. by apply IH.
Qed.

Lemma lstrip_app_all (p : ascii → bool) (pre s : string) :
  any_char (λ c, negb (p c)) pre = false → lstrip_by p (pre +:+ s) = lstrip_by p s.
Proof.
  induction pre as [|a pre IH]; [done|]. rewrite append_cons. simpl.
  intros [Ha Hs]%orb_false_iff. apply negb_false_iff in Ha. rewrite Ha. by apply IH.
Qed.

(** What [strip] returns is framed in the word by characters of
    [chars], and neither begins nor ends with one. *)
Lemma strip_frame (chars word : string) :
  ∃ pre post,
    word = pre +:+ strip chars word +:+ post ∧
    any_char (λ c, negb (has_char c chars)) pre = false ∧
    any_char (λ c, negb (has_char c chars)) post = false.
Proof.
  unfold strip.
  destruct (lstrip_frame (λ c, has_char c chars) word) as (pre & Hw & Hpre).
  destruct (rstrip_frame (λ c, has_char c chars) (lstrip_by (λ c, has_char c chars) word))
    as (post & Hl & Hpost).
  exists pre, post. by rewrite <- Hl.
Qed.

Lemma strip_fixed (chars word : string) :
  lstrip_by (λ c, has_char c chars) (strip chars word) = strip chars word ∧
  rstrip_by (λ c, has_char c chars) (strip chars word) = strip chars word.
Proof.
  unfold strip. split; [|apply rstrip_rstrip].
  destruct (lstrip_by (λ c, has_char c chars) word) as [|c t] eqn:Hl; [done|].
  apply lstrip_first in Hl.
  destruct (rstrip_first (λ c, has_char c chars) c t) as [->|[r ->]]; [done|].
  simpl. by rewrite Hl.
Qed.

Lemma strip_framed (chars pre x post : string) :
  any_char (λ c, negb (has_char c chars)) pre = false →
  any_char (λ c, negb (has_char c chars)) post = false →
  lstrip_by (λ c, has_char c chars) x = x →
  rstrip_by (λ c, has_char c chars) x = x →
  strip chars (pre +:+ x +:+ post) = x.
Proof.
  intros Hpre Hpost Hl Hr. unfold strip. rewrite lstrip_app_all by done.
  destruct x as [|c t].
  - rewrite append_nil_l, lstrip_all by done. done.
  - apply lstrip_fixed_first in Hl. rewrite append_cons. simpl. rewrite Hl.
    rewrite <- append_cons. by rewrite rstrip_app_blank.
Qed.

(** *** Replacing the stripped word in the word *)

Lemma startswith_app (old rest : string) : startswith old (old +:+ rest) = true.
Proof.
  induction old as [|a old IH]; [done|]. rewrite append_cons. simpl.
  by rewrite Ascii.eqb_refl.
Qed.

Lemma replace_go_skip (old new u rest : string) :
  replace_go old new (String.length u) (u +:+ rest) = replace_go old new 0 rest.
Proof.
  induction u as [|c u IH]; [by destruct rest|]. rewrite append_cons. simpl. apply IH.
Qed.

Lemma replace_go_hit (a : ascii) (old new rest : string) :
  replace_go (String a old) new 0 (String a old +:+ rest)
    = new +:+ replace_go (String a old) new 0 rest.
Proof.
  rewrite append_cons. cbn [replace_go].
  rewrite <- append_cons, startswith_app.
  cbn [String.length]. rewrite Nat.sub_1_r. cbn [Nat.pred].
  by rewrite replace_go_skip.
Qed.

Lemma replace_go_pass (p : ascii → bool) (a : ascii) (old new u rest : string) :
  p a = false → any_char (λ c, negb (p c)) u = false →
  replace_go (String a old) new 0 (u +:+ rest)
    = u +:+ replace_go (String a old) new 0 rest.
Proof.
  intros Ha. induction u as [|c u IH]; [done|]. rewrite !append_cons.
  cbn [any_char]. intros [Hc Hu]%orb_false_iff. apply negb_false_iff in Hc.
  cbn [replace_go startswith].
  assert (Ascii.eqb a c = false) as ->.
  { apply Ascii.eqb_neq. intros ->. congruence. }
  simpl. by rewrite IH.
Qed.

Lemma replace_framed (p : ascii → bool) (clean x pre post : string) :
  clean ≠ EmptyString → lstrip_by p clean = clean →
  any_char (λ c, negb (p c)) pre = false →
  any_char (λ c, negb (p c)) post = false →
  replace clean x (pre +:+ clean +:+ post) = pre +:+ x +:+ post.
Proof.
  intros Hne Hl Hpre Hpost. destruct clean as [|a clean]; [done|].
  apply lstrip_fixed_first in Hl. unfold replace.
  rewrite (replace_go_pass p) by done.
  rewrite replace_go_hit.
  rewrite <- (append_empty_r post) at 1.
  rewrite (replace_go_pass p) by done.
  simpl. by rewrite append_empty_r.
Qed.

End StripFacts.

(** ** Commit-message corrector: further properties of the review *)

Section ReviewFacts.
Import PyStr Console FixCommits BatchSpec ReviewSpec BatchSamples.

(** What the prompt loop has read and what it returns. *)
Lemma get_user_choice_reads (original suggested : string) (stdin : list string)
    (act : action) (msg : string) (rest : list string) :
  get_user_choice_for_commit original suggested stdin = Done (act, msg) rest →
  (∃ used, used ≠ [] ∧ stdin = used ++ rest) ∧
  match act with
  | accept =>
      msg = suggested ∨
      (msg ≠ EmptyString ∧ ∃ line, line ∈ stdin ∧ msg = strip_blank line)
  | skip => msg = original
  | abort => msg = original
  | edit => False
  end.
Proof.
  assert (H : ∀ n stdin, length stdin ≤ n →
    get_user_choice_for_commit original suggested stdin = Done (act, msg) rest →
    (∃ used, used ≠ [] ∧ stdin = used ++ rest) ∧
    match act with
    | accept =>
        msg = suggested ∨
        (msg ≠ EmptyString ∧ ∃ line, line ∈ stdin ∧ msg = strip_blank line)
    | skip => msg = original
    | abort => msg = original
    | edit => False
    end).
  { clear stdin. induction n as [|n IH]; intros [|line stdin] Hlen; simpl in *;
      try done; try lia.
    assert (Hlater : ∀ used' later,
      length later ≤ n → line :: stdin = used' ++ later → used' ≠ [] →
      get_user_choice_for_commit original suggested later = Done (act, msg) rest →
      (∃ used, used ≠ [] ∧ line :: stdin = used ++ rest) ∧
      match act with
      | accept =>
          msg = suggested ∨
          (msg ≠ EmptyString ∧ ∃ l, l ∈ line :: stdin ∧ msg = strip_blank l)
      | skip => msg = original
      | abort => msg = original
      | edit => False
      end).
    { intros used' later Hl Heq Hne Hrun.
      destruct (IH later Hl Hrun) as [(used & Hu & ->) Hact]. split.
      - exists (used' ++ used). split; [by destruct used'|]. by rewrite <- app_assoc.
      - destruct act; try done. destruct Hact as [?|(? & l & Hin & ?)]; [by left|].
        right. split; [done|]. exists l. split; [|done].
        rewrite Heq. apply elem_of_app. by right. }
    destruct (is_yes _).
    { intros [= <- <- <-]. split; [by exists [line]|]. simpl. by left. }
    destruct (_ || _).
    { intros [= <- <- <-]. split; [by exists [line]|done]. }
    destruct (_ || _).
    { destruct stdin as [|line2 stdin2]; [done|].
      destruct (negb (String.eqb (strip_blank line2) EmptyString)) eqn:Hne.
      - destruct stdin2 as [|line3 stdin3]; [done|].
        destruct (is_yes _).
        + intros [= <- <- <-]. split; [by exists [line; line2; line3]|].
          simpl. right. split.
          * by apply negb_true_iff, String.eqb_neq in Hne.
          * exists line2. split; [|done]. apply elem_of_cons. right. apply list_elem_of_here.
        + apply (Hlater [line; line2; line3]); simpl in *; [lia|done..].
      - apply (Hlater [line; line2]); simpl in *; [lia|done..]. }
    destruct (_ || _).
    { intros [= <- <- <-]. split; [by exists [line]|done]. }
    apply (Hlater [line]); simpl in *; [lia|done..]. }
  by apply (H (length stdin)).
Qed.

(** X1.  When [get_user_choice_for_commit] returns it has read at least
    one line; it never returns the action [edit]; with [skip] and
    [abort] it returns the original message; with [accept] it returns
    the suggestion or an edited message, which is a line of the input
    stripped of its surrounding blanks and is not empty. *)
Theorem user_choice_result (original suggested : string) (stdin : list string)
    (act : action) (msg : string) (rest : list string) :
  get_user_choice_for_commit original suggested stdin = Done (act, msg) rest →
  (∃ used, used ≠ [] ∧ stdin = used ++ rest) ∧
  match act with
  | accept =>
      msg = suggested ∨
      (msg ≠ EmptyString ∧ ∃ line, line ∈ stdin ∧ msg = strip_blank line)
  | skip => msg = original
  | abort => msg = original
  | edit => False
  end.
Proof. apply get_user_choice_reads. Qed.

Lemma user_choice_result_witness :
  get_user_choice_for_commit "fix bug" "Fix bug" ["e"; "  Repair the bug "; "Y"; "s"]
    = Done (accept, "Repair the bug") ["s"] ∧
  ∃ used, used ≠ [] ∧ ["e"; "  Repair the bug "; "Y"; "s"] = used ++ ["s"].
Proof.
  assert (Hrun : get_user_choice_for_commit "fix bug" "Fix bug"
                   ["e"; "  Repair the bug "; "Y"; "s"]
                 = Done (accept, "Repair the bug") ["s"]) by (vm_compute; reflexivity).
  split; [exact Hrun|]. exact (proj1 (user_choice_result _ _ _ _ _ _ Hrun)).
Defined.


(** The changes the review loop hands on are accepted ones: each has
    the hash and the original message of a proposed change, in the order
    of the proposals, and a new message that differs from the original. *)
Lemma review_accepts (changes commit_changes : list change) (stdin : list string)
    (cc : list change) (rest : list string) :
  (review changes commit_changes stdin).2 = Done (Some cc) rest →
  ∃ accepted, cc = commit_changes ++ accepted ∧ approved changes accepted.
Proof.
  unfold approved. revert commit_changes stdin.
  induction changes as [|[[commit_hash original] suggested] changes IH];
    intros commit_changes stdin.
  { intros [= <- <-]. exists []. rewrite app_nil_r. split; [done|].
    split; [constructor|apply sublist_nil]. }
  cbn [review]. rewrite bind_run.
  destruct (get_user_choice_for_commit original suggested stdin)
    as [[act new_message] stdin'|e|code]; simpl; [|done..].
  assert (Hnext : (review changes commit_changes stdin').2 = Done (Some cc) rest →
    ∃ accepted, cc = commit_changes ++ accepted ∧
      Forall (λ c : change, c.2 ≠ c.1.2) accepted ∧
      sublist (fst <$> accepted) (fst <$> (commit_hash, original, suggested) :: changes)).
  { intros (accepted & -> & Hne & Hsub)%IH. exists accepted.
    split_and!; [done..|]. by apply sublist_cons. }
  destruct act; simpl; [|rewrite bind_run; simpl; apply Hnext|apply Hnext|done].
  destruct (negb (String.eqb new_message original)) eqn:Hne; [|apply Hnext].
  rewrite bind_run; simpl. intros (accepted & -> & Hacc & Hsub)%IH.
  exists ((commit_hash, original, new_message) :: accepted).
  rewrite <- app_assoc. split_and!; [done| |by apply sublist_skip].
  constructor; [|done]. simpl. by apply negb_true_iff, String.eqb_neq in Hne.
Qed.

Lemma rewrites_cons (e : event) (out : list event) :
  rewrites (e :: out) = if is_filter_branch e then e :: rewrites out else rewrites out.
Proof.
  unfold rewrites. destruct (is_filter_branch e) eqn:He.
  - rewrite filter_cons_True; [done|]. by apply Is_true_true.
  - rewrite filter_cons_False; [done|]. by apply Is_true_false.
Qed.

Lemma rewrites_app (out out' : list event) :
  rewrites (out ++ out') = rewrites out ++ rewrites out'.
Proof. apply filter_app. Qed.

(** [rewrite_history] spelled out along its branches. *)
Lemma rewrite_history_run (repo : Repo) (c : change) (changes : list change)
    (stdin : list string) :
  rewrite_history repo (c :: changes) stdin =
    match review (c :: changes) [] stdin with
    | (out, Done None rest) =>
        (Found_corrections (S (length changes)) :: out, Done (false, repo) rest)
    | (out, Done (Some []) rest) =>
        (Found_corrections (S (length changes)) :: out ++ [No_changes_to_apply],
         Done (false, repo) rest)
    | (out, Done (Some cc) []) =>
        (Found_corrections (S (length changes)) :: out ++ [Summary cc], Raised EOFError)
    | (out, Done (Some cc) (final_confirm :: rest)) =>
        if String.eqb (lower (strip_blank final_confirm)) "yes" then
          if filter_branch_ok repo then
            (Found_corrections (S (length changes)) :: out ++
               [Summary cc; Rewriting; Filter_branch (repo_name repo) cc; Rewritten],
             Done (true, {| repo_name := repo_name repo; clean := clean repo;
                            commits := prod_map id (msg_filter cc) <$> commits repo;
                            filter_branch_ok := filter_branch_ok repo |}) rest)
          else
            (Found_corrections (S (length changes)) :: out ++
               [Summary cc; Rewriting; Filter_branch (repo_name repo) cc;
                Filter_branch_error; Failed_to_rewrite],
             Done (false, repo) rest)
        else
          (Found_corrections (S (length changes)) :: out ++ [Summary cc; Aborted],
           Done (false, repo) rest)
    | (out, Raised e) => (Found_corrections (S (length changes)) :: out, Raised e)
    | (out, Exited code) => (Found_corrections (S (length changes)) :: out, Exited code)
    end.
Proof.
  unfold rewrite_history.
  set (rv := review (c :: changes) []). clearbody rv.
  rewrite bind_run; simpl. rewrite bind_run.
  destruct (rv stdin) as [out [[[|c' cc]|] rest|e|code]]; simpl;
    rewrite ?app_nil_r; try done.
  rewrite bind_run; simpl. rewrite bind_run.
  destruct rest as [|final_confirm rest]; simpl; [done|].
  destruct (String.eqb (lower (strip_blank final_confirm)) "yes"); simpl; [|done].
  unfold rewrite_commits_with_script.
  destruct (filter_branch_ok repo) eqn:Hok; simpl; by rewrite ?Hok.
Qed.



(** How [rewrite_history] ends: with [True] after one successful call of
    git that put the filtered messages in place, with [False] and the
    repository as it was otherwise. *)
Lemma rewrite_history_result (repo : Repo) (changes : list change) (stdin : list string) :
  match (rewrite_history repo changes stdin).2 with
  | Done (true, repo') _ =>
      filter_branch_ok repo = true ∧
      ∃ cc, cc ≠ [] ∧ approved changes cc ∧
        rewrites (rewrite_history repo changes stdin).1
          = [Filter_branch (repo_name repo) cc] ∧
        repo' = {| repo_name := repo_name repo; clean := clean repo;
                   commits := prod_map id (msg_filter cc) <$> commits repo;
                   filter_branch_ok := filter_branch_ok repo |}
  | Done (false, repo') _ => repo' = repo
  | Raised e => e = EOFError
  | Exited _ => False
  end.
Proof.
  destruct changes as [|c changes]; [done|].
  rewrite rewrite_history_run.
  pose proof (review_spec (c :: changes) [] stdin) as [Hrw Hres].
  pose proof (review_accepts (c :: changes) [] stdin) as Hacc.
  destruct (review (c :: changes) [] stdin) as [out [[[|c' cc']|] rest|e|code]];
    simpl in *; try done; [|by destruct Hres].
  destruct (Hacc _ _ eq_refl) as (accepted & Heq & Happ).
  simpl in Heq. subst accepted.
  destruct rest as [|final_confirm rest]; simpl; [done|].
  destruct (String.eqb _ "yes"); [|done].
  destruct (filter_branch_ok repo) eqn:Hok; simpl; [|done].
  split; [done|]. exists (c' :: cc'). split_and!; [done|exact Happ| |done].
  rewrite rewrites_cons, rewrites_app, Hrw; simpl. by rewrite !rewrites_cons.
Qed.

Section Repositories.

Context (detect : string → option string) (spell_en spell_de : SpellChecker).

Local Abbreviation process_repository := (process_repository detect spell_en spell_de).
Local Abbreviation process_all := (process_all detect spell_en spell_de).
Local Abbreviation proposals repo := (preview_changes detect (commits repo) spell_en spell_de).

(** [process_repository] spelled out along its branches. *)
Lemma process_repository_run (repo : Repo) (stdin : list string) :
  process_repository repo stdin =
    if negb (clean repo) then
      ([Repository (repo_name repo); Dirty_working_tree],
       Done (skipped "dirty working tree", repo) stdin)
    else if bool_decide (commits repo = []) then
      ([Repository (repo_name repo); No_commits_found],
       Done (skipped "no commits", repo) stdin)
    else if bool_decide (proposals repo = []) then
      ([Repository (repo_name repo); Found_commits (length (commits repo));
        No_spelling_errors],
       Done (is_clean, repo) stdin)
    else
      match rewrite_history repo (proposals repo) stdin with
      | (out, Done (true, repo') rest) =>
          (Repository (repo_name repo) :: Found_commits (length (commits repo)) :: out,
           Done (corrected (length (proposals repo)), repo') rest)
      | (out, Done (false, repo') rest) =>
          (Repository (repo_name repo) :: Found_commits (length (commits repo)) :: out,
           Done (skipped "user declined", repo') rest)
      | (out, Raised e) =>
          (Repository (repo_name repo) :: Found_commits (length (commits repo)) :: out,
           Raised e)
      | (out, Exited code) =>
          (Repository (repo_name repo) :: Found_commits (length (commits repo)) :: out,
           Exited code)
      end.
Proof.
  unfold FixCommits.process_repository.
  set (changes := preview_changes _ _ _ _). clearbody changes.
  rewrite bind_run; simpl.
  destruct (negb (clean repo)); [done|].
  destruct (commits repo) as [|c cs] eqn:Hc; [done|].
  rewrite bool_decide_eq_false_2 by done.
  rewrite bind_run; simpl.
  destruct changes as [|ch changes]; [done|].
  rewrite bool_decide_eq_false_2 by done.
  set (rh := rewrite_history repo (ch :: changes)). clearbody rh.
  rewrite bind_run.
  destruct (rh stdin) as [out [[[] repo'] stdin'|e|code]]; simpl;
    by rewrite ?app_nil_r.
Qed.

(** How [process_repository] ends. *)
Lemma process_repository_ends (repo : Repo) (stdin : list string) :
  match (process_repository repo stdin).2 with
  | Done (corrected n, repo') _ =>
      clean repo = true ∧ filter_branch_ok repo = true ∧
      n = length (proposals repo) ∧
      ∃ cc, cc ≠ [] ∧ approved (proposals repo) cc ∧ length cc ≤ n ∧
        rewrites (process_repository repo stdin).1
          = [Filter_branch (repo_name repo) cc] ∧
        repo' = {| repo_name := repo_name repo; clean := clean repo;
                   commits := prod_map id (msg_filter cc) <$> commits repo;
                   filter_branch_ok := filter_branch_ok repo |}
  | Done (is_clean, repo') rest =>
      repo' = repo ∧ rest = stdin ∧ proposals repo = [] ∧
      rewrites (process_repository repo stdin).1 = []
  | Done (skipped reason, repo') rest =>
      repo' = repo ∧
      (reason = "user declined" ∨
       (rest = stdin ∧ rewrites (process_repository repo stdin).1 = [] ∧
        (reason = "dirty working tree" ∧ clean repo = false ∨
         reason = "no commits" ∧ commits repo = [])))
  | Raised e => e = EOFError
  | Exited _ => False
  end.
Proof.
  rewrite process_repository_run.
  destruct (negb (clean repo)) eqn:Hclean; simpl.
  { apply negb_true_iff in Hclean. split; [done|]. right. split_and!; try done. by left. }
  apply negb_false_iff in Hclean.
  case_bool_decide as Hcommits; simpl.
  { split; [done|]. right. split_and!; try done. by right. }
  case_bool_decide as Hprop; simpl; [done|].
  pose proof (rewrite_history_result repo (proposals repo) stdin) as Hres.
  destruct (rewrite_history repo (proposals repo) stdin)
    as [out [[[] repo'] rest|e|code]]; simpl in *; try done.
  - destruct Hres as (Hok & cc & Hne & Happ & Hrw & ->).
    split_and!; try done. exists cc. split_and!; try done.
    destruct Happ as [_ Hsub]. apply sublist_length in Hsub.
    by rewrite !length_fmap in Hsub.
  - split; [done|]. by left.
Qed.

(** X3.  How [process_repository] ends.  It reports "corrected" only for
    a clean repository on which git succeeded, after exactly one call
    of [git filter-branch] with a non-empty list of accepted changes;
    the number it reports is the number of proposed corrections, which
    the number of accepted ones does not exceed.  With every other report the
    repository is as it was, and a dirty repository, one without commits
    and one without proposals are left without any prompt or git call. *)
Theorem process_repository_outcome (repo : Repo) (stdin : list string) :
  match (process_repository repo stdin).2 with
  | Done (corrected n, repo') _ =>
      clean repo = true ∧ filter_branch_ok repo = true ∧
      n = length (proposals repo) ∧
      ∃ cc, cc ≠ [] ∧ approved (proposals repo) cc ∧ length cc ≤ n ∧
        rewrites (process_repository repo stdin).1
          = [Filter_branch (repo_name repo) cc]
  | Done (is_clean, repo') rest =>
      repo' = repo ∧ rest = stdin ∧ proposals repo = [] ∧
      rewrites (process_repository repo stdin).1 = []
  | Done (skipped reason, repo') rest =>
      repo' = repo ∧
      (reason = "user declined" ∨
       (rest = stdin ∧ rewrites (process_repository repo stdin).1 = [] ∧
        (reason = "dirty working tree" ∧ clean repo = false ∨
         reason = "no commits" ∧ commits repo = [])))
  | Raised e => e = EOFError
  | Exited _ => False
  end.
Proof.
  pose proof (process_repository_ends repo stdin) as H.
  destruct (process_repository repo stdin).2 as [[[n| |reason] repo'] rest|e|code];
    try done.
  destruct H as (Hclean & Hok & Hn & cc & Hne & Happ & Hlen & Hrw & _).
  split_and!; try done. by exists cc.
Qed.

Lemma process_repository_keeps (repo : Repo) (stdin : list string)
    (st : status) (repo' : Repo) (rest : list string) :
  (process_repository repo stdin).2 = Done (st, repo') rest →
  repo_name repo' = repo_name repo ∧ ((∃ n, st = corrected n) ∨ repo' = repo).
Proof.
  intros Hrun. pose proof (process_repository_ends repo stdin) as H.
  rewrite Hrun in H. destruct st as [n| |reason].
  - destruct H as (_ & _ & _ & cc & _ & _ & _ & _ & ->). split; [done|]. left. by exists n.
  - destruct H as [-> _]. split; [done|]. by right.
  - destruct H as [-> _]. split; [done|]. by right.
Qed.

(** X4.  When the loop of [main] over the repositories ends, it has one
    result and one repository for every repository it was given, under
    the same name and in the same order, and every repository that is
    not reported as corrected is as it was. *)
Theorem process_all_results (repos : list Repo) (stdin : list string)
    (results : list (string * status)) (after : list Repo) (rest : list string) :
  (process_all repos stdin).2 = Done (results, after) rest →
  results.*1 = repo_name <$> repos ∧
  repo_name <$> after = repo_name <$> repos ∧
  ∀ i repo, repos !! i = Some repo →
    ∃ st repo', results !! i = Some (repo_name repo, st) ∧ after !! i = Some repo' ∧
                ((∃ n, st = corrected n) ∨ repo' = repo).
Proof.
  revert stdin results after.
  induction repos as [|repo repos IH]; intros stdin results after.
  { intros [= <- <- <-]. by split_and!. }
  cbn [FixCommits.process_all]. rewrite bind_run.
  destruct (process_repository repo stdin) as [out [[st repo'] stdin'|e|code]] eqn:Hrepo;
    simpl; [|done..].
  rewrite bind_run.
  destruct (process_all repos stdin') as [out' [[results' after'] stdin''|e|code]] eqn:Hall;
    simpl; [|done..].
  intros [= <- <- <-].
  destruct (IH stdin' results' after') as (Hres & Haft & Hi); [by rewrite Hall|].
  destruct (process_repository_keeps repo stdin st repo' stdin') as [Hname Hkeep];
    [by rewrite Hrepo|].
  split_and!.
  - rewrite !fmap_cons. by rewrite Hres.
  - rewrite !fmap_cons. by rewrite Hname, Haft.
  - intros [|i] r; simpl.
    + intros [= <-]. by exists st, repo'.
    + apply Hi.
Qed.

Local Abbreviation check message := (spell_check_message detect message spell_en spell_de).

Lemma preview_changes_elem (commits : list (string * string)) (h m c : string) :
  (h, m, c) ∈ preview_changes detect commits spell_en spell_de ↔
  (h, m) ∈ commits ∧ c = check m ∧ c ≠ m.
Proof.
  unfold preview_changes. rewrite list_elem_of_omap. split.
  - intros ([h' m'] & Hin & Heq).
    destruct (String.eqb_spec (check m') m') as [|Hne]; [done|].
    by injection Heq as <- <- <-.
  - intros (Hin & -> & Hne). exists (h, m). split; [done|].
    by destruct (String.eqb_spec (check m) m).
Qed.

Lemma preview_changes_nil (commits : list (string * string)) :
  preview_changes detect commits spell_en spell_de = [] ↔
  Forall (λ c, check c.2 = c.2) commits.
Proof.
  rewrite Forall_forall. split.
  - intros Hnil [h m] Hin. simpl.
    destruct (String.eqb_spec (check m) m) as [|Hne]; [done|].
    assert (Hc : (h, m, check m) ∈ preview_changes detect commits spell_en spell_de)
      by by apply preview_changes_elem.
    rewrite Hnil in Hc. by apply elem_of_nil in Hc.
  - intros Hall. apply elem_of_nil_inv. intros [[h m] c] (Hin & -> & Hne)%preview_changes_elem.
    by apply Hne, (Hall (h, m)).
Qed.

(** X12.  The corrections proposed for a repository are exactly its
    commits whose message [spell_check_message] changes, each with the
    changed message; and [process_repository] reports a repository as
    clean exactly when its working tree is clean, it has commits, and
    [spell_check_message] returns every commit message as it is. *)
Theorem clean_report (repo : Repo) (stdin : list string) :
  (∀ h m c, (h, m, c) ∈ proposals repo ↔
            (h, m) ∈ commits repo ∧ c = check m ∧ c ≠ m) ∧
  ((∃ repo' rest, (process_repository repo stdin).2 = Done (is_clean, repo') rest) ↔
   clean repo = true ∧ commits repo ≠ [] ∧
   Forall (λ c, check c.2 = c.2) (commits repo)).
Proof.
  split; [intros h m c; apply preview_changes_elem|].
  rewrite process_repository_run, <- preview_changes_nil.
  destruct (clean repo); simpl.
  - case_bool_decide as Hcommits; simpl.
    { split; [by intros (? & ? & ?)|by intros (_ & ? & _)]. }
    case_bool_decide as Hprop; simpl.
    { split; [done|]. intros _. by exists repo, stdin. }
    destruct (rewrite_history repo (proposals repo) stdin)
      as [out [[[] repo'] rest|e|code]]; simpl;
      (split; [by intros (? & ? & ?)|by intros (_ & _ & ?)]).
  - split; [by intros (? & ? & ?)|by intros (? & _)].
Qed.

End Repositories.

Lemma process_all_results_witness :
  (FixCommits.process_all no_detection dictionary dictionary [first_repo; second_repo]
     ["a"; "y"; "yes"]).2
  = Done ([("first", skipped "user declined"); ("second", corrected 1)],
          [first_repo;
           {| repo_name := "second"; clean := true;
              commits := [("b1", "Fix bug"); ("b2", "Add test")];
              filter_branch_ok := true |}]) [] ∧
  [("first", skipped "user declined"); ("second", corrected 1)].*1
    = repo_name <$> [first_repo; second_repo].
Proof.
  assert (Hrun : (FixCommits.process_all no_detection dictionary dictionary
                    [first_repo; second_repo] ["a"; "y"; "yes"]).2
    = Done ([("first", skipped "user declined"); ("second", corrected 1)],
            [first_repo;
             {| repo_name := "second"; clean := true;
                commits := [("b1", "Fix bug"); ("b2", "Add test")];
                filter_branch_ok := true |}]) []) by (vm_compute; reflexivity).
  split; [exact Hrun|].
  exact (proj1 (process_all_results _ _ _ _ _ _ _ _ Hrun)).
Defined.

End ReviewFacts.

(** ** Commit-message corrector: git's text *)

Section GitTextFacts.
Import PyStr GitText GitTextSpec CorrectorSpec.

(** *** The escaping of messages for the shell *)

Lemma replace_char (a : ascii) (new s : string) :
  replace (String a EmptyString) new s
    = subst_chars (λ c, if Ascii.eqb a c then new else String c EmptyString) s.
Proof.
  unfold replace. induction s as [|c s IH]; [done|].
  cbn [replace_go startswith subst_chars String.length Nat.sub].
  rewrite andb_true_r. destruct (Ascii.eqb a c); by rewrite IH.
Qed.

Lemma subst_chars_app (f : ascii → string) (s t : string) :
  subst_chars f (s +:+ t) = subst_chars f s +:+ subst_chars f t.
Proof.
  induction s as [|c s IH]; [done|].
  rewrite append_cons. cbn [subst_chars]. by rewrite IH, append_assoc.
Qed.

Lemma subst_chars_subst_chars (f g : ascii → string) (s : string) :
  subst_chars g (subst_chars f s) = subst_chars (λ c, subst_chars g (f c)) s.
Proof.
  induction s as [|c s IH]; [done|].
  cbn [subst_chars]. by rewrite subst_chars_app, IH.
Qed.

Lemma shell_escape_chars (msg : string) :
  shell_escape msg = subst_chars escape_char msg.
Proof.
  unfold shell_escape. rewrite !replace_char.
  by rewrite !(subst_chars_subst_chars _ _ msg).
Qed.

Lemma read_escape_char (c : ascii) (rest : string) :
  read_double_quoted (escape_char c +:+ rest) = String c <$> read_double_quoted rest.
Proof. by destruct c as [[] [] [] [] [] [] [] []]. Qed.

(** X5.  The escaping of [rewrite_commits_with_script] is right for
    every message: read by the shell between double quotes, the escaped
    text is the message itself, and nothing in it starts an expansion
    or ends the quoted word. *)
Theorem shell_escape_read_back (msg : string) :
  read_double_quoted (shell_escape msg) = Some msg.
Proof.
  rewrite shell_escape_chars. induction msg as [|c msg IH]; [done|].
  cbn [subst_chars]. by rewrite read_escape_char, IH.
Qed.

(** *** Reading the log *)



Lemma take_app_length (s t : string) : take (String.length s) (s +:+ t) = s.
Proof.
  induction s as [|c s IH]; [by destruct t|].
  rewrite append_cons. cbn [String.length take]. by rewrite IH.
Qed.

Lemma drop_app_length (s t : string) : drop (String.length s) (s +:+ t) = t.
Proof. induction s as [|c s IH]; [done|]. rewrite append_cons. apply IH. Qed.











(** *** Any output *)

Lemma startswith_drop (p s : string) :
  startswith p s = true → s = p +:+ drop (String.length p) s.
Proof.
  revert s; induction p as [|a p IH]; intros [|c s]; simpl; try done.
  intros [Ha Hp]%andb_true_iff. apply Ascii.eqb_eq in Ha as ->.
  rewrite append_cons. f_equal. by apply IH.
Qed.

Lemma startswith_take (p s : string) (n : nat) :
  startswith p (take n s) = true → startswith p s = true.
Proof.
  revert s n; induction p as [|a p IH]; intros [|c s] [|n]; simpl; try done.
  intros [Ha Hp]%andb_true_iff. rewrite Ha. simpl. by eapply IH.
Qed.

(** [find] returns the first place where [sub] stands. *)
Lemma find_Some (sub s : string) (i : nat) :
  find sub s = Some i →
  s = take i s +:+ sub +:+ drop (i + String.length sub) s ∧
  String.length (take i s) = i.
Proof.
  revert i; induction s as [|c s IH]; intros i; cbn [find].
  - destruct (startswith sub EmptyString) eqn:Hs; [|done].
    intros [= <-]. split; [|done]. by apply startswith_drop in Hs.
  - destruct (startswith sub (String c s)) eqn:Hs.
    + intros [= <-]. split; [|done]. by apply startswith_drop in Hs.
    + destruct (find sub s) as [j|]; [|done]. intros [= <-].
      destruct (IH j eq_refl) as [Heq Hlen]. cbn [take drop Nat.add String.length].
      rewrite append_cons, <- Heq, Hlen. done.
Qed.

Lemma strip_blank_empty (s : string) :
  strip_blank s = EmptyString ↔ any_char (λ c, negb (isspace c)) s = false.
Proof.
  unfold strip_blank. split.
  - intros Hs.
    destruct (lstrip_frame isspace s) as (pre & Hpre & Hblank).
    destruct (rstrip_frame isspace (lstrip_by isspace s)) as (post & Hpost & Hblank').
    rewrite Hs, append_nil_l in Hpost. rewrite Hpre, Hpost, any_char_app.
    by rewrite Hblank, Hblank'.
  - intros Hs. by rewrite lstrip_all.
Qed.

(** X13.  [check_clean_working_tree] takes a working tree for clean when
    [git status --porcelain] prints nothing but blanks, and also when
    the command fails: [run_git_command] then returns the empty string,
    as it does for a command without output. *)
Theorem check_clean_working_tree_output (result : option string) :
  check_clean_working_tree result =
    match result with
    | Some stdout => negb (any_char (λ c, negb (isspace c)) stdout)
    | None => true
    end.
Proof.
  destruct result as [stdout|]; [|done].
  unfold check_clean_working_tree, run_git_command.
  destruct (String.eqb_spec (strip_blank stdout) EmptyString) as [Hs|Hs].
  - apply strip_blank_empty in Hs. by rewrite Hs.
  - destruct (any_char _ stdout) eqn:Hb; [done|]. by apply strip_blank_empty in Hb.
Qed.

Lemma parse_line_Some (line commit_hash message : string) :
  parse_line line = Some (commit_hash, message) ↔
  line = commit_hash +:+ "|||" +:+ message ∧
  find "|||" line = Some (String.length commit_hash).
Proof.
  unfold parse_line, split_once. split.
  - destruct (String.eqb line EmptyString); [done|].
    destruct (find "|||" line) as [i|] eqn:Hfind; [|done].
    intros [= <- <-]. destruct (find_Some _ _ _ Hfind) as [Heq Hlen].
    by rewrite Hlen.
  - intros [Hline Hfind]. rewrite Hfind.
    destruct (String.eqb_spec line EmptyString) as [->|_]; [done|].
    rewrite Hline at 1 2. by rewrite take_app_length, drop_drop, drop_app_length.
Qed.

(** X14.  What [get_commit_list] returns for any output of [git log]:
    the pairs (hash, message) for which hash, "|||" and message make a
    line of the stripped output and this "|||" is the first in the
    line.  Lines without the separator and empty lines give nothing,
    and so does a command that fails. *)
Theorem get_commit_list_entries (result : option string) (commit_hash message : string) :
  (commit_hash, message) ∈ get_commit_list result ↔
  ∃ stdout,
    result = Some stdout ∧
    log_line (commit_hash, message) ∈ split_on nl (strip_blank stdout) ∧
    find "|||" (log_line (commit_hash, message)) = Some (String.length commit_hash).
Proof.
  unfold get_commit_list, log_line. simpl. split.
  - destruct result as [stdout|]; [|by intros ?%elem_of_nil].
    simpl. destruct (String.eqb (strip_blank stdout) EmptyString); [by intros ?%elem_of_nil|].
    rewrite elem_of_reverse, list_elem_of_omap.
    intros (line & Hin & [-> Hfind]%parse_line_Some).
    by exists stdout.
  - intros (stdout & -> & Hin & Hfind). simpl.
    destruct (String.eqb_spec (strip_blank stdout) EmptyString) as [Hnil|_].
    { rewrite Hnil in Hin. apply list_elem_of_singleton in Hin.
      by destruct commit_hash. }
    rewrite elem_of_reverse, list_elem_of_omap.
    exists (commit_hash +:+ "|||" +:+ message). split; [done|].
    by apply parse_line_Some.
Qed.

End GitTextFacts.

(** ** Corrector: the case rules *)

Section CaseRuleFacts.
Import PyStr PyRe FixCommits CorrectorSpec BatchSamples.

(** *** Case and punctuation *)

Lemma punctuation_lower_char (c : ascii) :
  has_char (lower_char c) punctuation = has_char c punctuation.
Proof. by destruct c as [[] [] [] [] [] [] [] []]. Qed.

Lemma punctuation_upper_char (c : ascii) :
  has_char (upper_char c) punctuation = has_char c punctuation.
Proof. by destruct c as [[] [] [] [] [] [] [] []]. Qed.

Lemma upper_char_not_lower (c : ascii) : islower_char (upper_char c) = false.
Proof. by destruct c as [[] [] [] [] [] [] [] []]. Qed.

Local Abbreviation punct := (λ c : ascii, has_char c punctuation).

Lemma lstrip_fixed_lower (s : string) :
  lstrip_by punct s = s → lstrip_by punct (lower s) = lower s.
Proof.
  destruct s as [|c t]; [done|]. intros Hc%lstrip_fixed_first.
  apply lstrip_fixed. simpl. by rewrite punctuation_lower_char.
Qed.

Lemma lstrip_fixed_capitalize (s : string) :
  lstrip_by punct s = s → lstrip_by punct (capitalize s) = capitalize s.
Proof.
  destruct s as [|c t]; [done|]. intros Hc%lstrip_fixed_first.
  apply lstrip_fixed. simpl. by rewrite punctuation_upper_char.
Qed.

Lemma rstrip_lower (s : string) :
  rstrip_by punct (lower s) = lower (rstrip_by punct s).
Proof.
  induction s as [|c s IH]; [done|]. cbn [lower rstrip_by]. rewrite IH.
  destruct (rstrip_by punct s); cbn [lower]; [|done].
  rewrite punctuation_lower_char. by destruct (has_char c punctuation).
Qed.

Lemma rstrip_fixed_lower (s : string) :
  rstrip_by punct s = s → rstrip_by punct (lower s) = lower s.
Proof. intros H. by rewrite rstrip_lower, H. Qed.

Lemma rstrip_fixed_capitalize (s : string) :
  rstrip_by punct s = s → rstrip_by punct (capitalize s) = capitalize s.
Proof.
  destruct s as [|c t]; [done|]. cbn [capitalize rstrip_by]. rewrite rstrip_lower.
  destruct (rstrip_by punct t) as [|d r] eqn:Hr; cbn [lower].
  - rewrite punctuation_upper_char. destruct (has_char c punctuation); [done|].
    by intros [= <-].
  - by intros [= <-].
Qed.

(** The word the loop appends when it puts [x] for the stripped word:
    the punctuation around the word stays. *)
Lemma replace_in_word (x word pre post : string) :
  word = pre +:+ strip punctuation word +:+ post →
  any_char (λ c, negb (has_char c punctuation)) pre = false →
  any_char (λ c, negb (has_char c punctuation)) post = false →
  strip punctuation word ≠ EmptyString →
  replace (strip punctuation word) x word = pre +:+ x +:+ post.
Proof.
  intros Hw Hpre Hpost Hne.
  destruct (strip_fixed punctuation word) as [Hl _].
  remember (strip punctuation word) as clean eqn:Hclean.
  rewrite Hw. by apply (replace_framed punct).
Qed.



Lemma proper_name_no_noun (w : string) :
  mem w always_capitalized = true → mem w capitalized_nouns_de = false.
Proof.
  unfold mem at 1. intros H%bool_decide_eq_true. unfold always_capitalized in H.
  repeat (apply elem_of_cons in H as [->|H]; [vm_compute; reflexivity|]).
  by apply elem_of_nil in H.
Qed.

Lemma proper_name_common_word (w : string) :
  mem w always_capitalized = true → mem w lowercase_words_en = true → w = "api".
Proof.
  unfold mem at 1. intros H%bool_decide_eq_true. unfold always_capitalized in H.
  repeat (apply elem_of_cons in H as [->|H];
          [first [reflexivity | vm_compute; discriminate]|]).
  by apply elem_of_nil in H.
Qed.

Section Message.

Context (detect : string → option string) (spell_en spell_de : SpellChecker).

Local Abbreviation check message := (spell_check_message detect message spell_en spell_de).
Local Abbreviation lang_of := (detect_language detect).
Local Abbreviation spell_of message := (spell_for (lang_of message) spell_en spell_de).



End Message.

(** X10.  After the first word, a word whose lower-cased form is in
    [always_capitalized] is written with one capital, whatever the
    language and the dictionary: the word between the punctuation is
    replaced by its lower-cased form put through [capitalize] (so
    "JavaScript" becomes "Javascript"), unless the word has one of the
    characters / : @ # _ - or is all upper case with more than one
    character. "api" is the one word that is also in
    [lowercase_words_en], and no word of the list is in
    [capitalized_nouns_de]. *)
Theorem proper_names_one_capital (l : lang) (spell : SpellChecker) (i : nat) (word : string) :
  0 < i →
  has_special word = false →
  isupper word && (1 <? String.length word) = false →
  mem (lower (strip punctuation word)) always_capitalized = true →
  lower (strip punctuation word) ≠ "api" →
  ∃ pre post,
    word = pre +:+ strip punctuation word +:+ post ∧
    any_char (λ c, negb (has_char c punctuation)) pre = false ∧
    any_char (λ c, negb (has_char c punctuation)) post = false ∧
    process_word l spell i word
      = pre +:+ capitalize (lower (strip punctuation word)) +:+ post.
Proof.
  intros Hi Hspecial Hacronym Hname Hapi.
  destruct (strip_frame punctuation word) as (pre & post & Hw & Hpre & Hpost).
  exists pre, post. split_and!; try done.
  unfold process_word. rewrite Hspecial, Hacronym.
  destruct (strip_fixed punctuation word) as [Hl _].
  destruct (String.eqb_spec (strip punctuation word) EmptyString) as [Hnil|Hne].
  { rewrite Hnil in Hname. vm_compute in Hname. discriminate. }
  destruct (Nat.eqb_spec i 0) as [->|_]; [lia|].
  assert (Hproper :
    (if mem (lower (strip punctuation word)) always_capitalized
     then if negb (String.eqb (strip punctuation word)
                     (capitalize (lower (strip punctuation word))))
          then replace (strip punctuation word)
                 (capitalize (lower (strip punctuation word))) word
          else word
     else match spelling l spell i (strip punctuation word) with
          | Some c => replace (strip punctuation word) c word
          | None => word
          end) = pre +:+ capitalize (lower (strip punctuation word)) +:+ post).
  { rewrite Hname.
    destruct (String.eqb_spec (strip punctuation word)
                (capitalize (lower (strip punctuation word)))) as [Heq|Hneq]; simpl.
    - by rewrite <- Heq.
    - by apply replace_in_word. }
  destruct l.
  - destruct (mem (lower (strip punctuation word)) lowercase_words_en) eqn:Hcommon;
      [|exact Hproper].
    by destruct Hapi; apply proper_name_common_word.
  - by rewrite (proper_name_no_noun _ Hname).
Qed.



End CaseRuleFacts.


Lemma proper_names_one_capital_witness :
  ∃ pre post,
    "JavaScript," = pre +:+ "JavaScript" +:+ post ∧
    PyStr.any_char (λ c, negb (PyStr.has_char c FixCommits.punctuation)) pre = false ∧
    PyStr.any_char (λ c, negb (PyStr.has_char c FixCommits.punctuation)) post = false ∧
    FixCommits.process_word FixCommits.En BatchSamples.dictionary 1 "JavaScript,"
      = pre +:+ "Javascript" +:+ post.
Proof.
  apply (proper_names_one_capital FixCommits.En BatchSamples.dictionary 1 "JavaScript,");
    [lia|vm_compute; reflexivity..|vm_compute; discriminate].
Defined.



(** ** Timeline summarizer: counters and errors *)

Section TimelineCountFacts.
Import PyStr Console MonthlyActivity TimelineSpec TimelineCounts.

Context (float_of_string : string → option float).

Local Abbreviation add_row := (add_row float_of_string).
Local Abbreviation add_rows := (add_rows float_of_string).
Local Abbreviation row_error := (row_error float_of_string).
Local Abbreviation number_error := (number_error float_of_string).

Lemma number_error_spec (r : row) (key : string) :
  match number_error key r with
  | Some e => number float_of_string r key = inl e
  | None => ∃ x, number float_of_string r key = inr x
  end.
Proof.
  unfold number_error, number, field.
  destruct (r !! key) as [[text|]|]; simpl; eauto.
  destruct (String.eqb text EmptyString); simpl; eauto.
  destruct (float_of_string text); simpl; eauto.
Qed.

(** What a turn of the loop that does not raise has done. *)
Lemma add_row_done (md md' : gmap string bucket) (r : row) :
  add_row md r = inr md' →
  ∃ month b,
    month_of r = Some month ∧ md' = <[month := b]> md ∧
    activities b = activities (bucket_at md month) ++ [r] ∧
    visit_counts b =
      visit_counts (bucket_at md month) + (if is_visit r then 1 else 0) ∧
    ∀ t, activity_counts b !! t =
           if is_activity t r
           then Some (S (default 0 (activity_counts (bucket_at md month) !! t)))
           else activity_counts (bucket_at md month) !! t.
Proof.
  unfold add_row, month_of, field, is_visit, is_activity, bucket_at.
  destruct (r !! "timestamp") as [[ts|]|]; simpl; try done.
  destruct (r !! "record_type") as [rt|]; simpl; [|done].
  destruct (number float_of_string r "distance_meters") as [|d]; simpl; [done|].
  destruct (number float_of_string r "duration_seconds") as [|u]; simpl; [done|].
  case_bool_decide as Hact.
  - destruct (r !! "activity_type") as [at_|]; simpl; [|done].
    intros [= <-]. eexists _, _. split_and!; try done; simpl.
    + rewrite bool_decide_eq_false_2; [lia|]. by subst.
    + intros t. destruct (decide (at_ = t)) as [->|Hne].
      * rewrite lookup_insert_eq, bool_decide_eq_true_2; [done|]. by subst.
      * rewrite lookup_insert_ne by done.
        rewrite bool_decide_eq_false_2; [done|]. intros [_ ?]; congruence.
  - case_bool_decide as Hvis.
    + intros [= <-]. eexists _, _. split_and!; try done; simpl.
      * rewrite bool_decide_eq_true_2; [lia|]. by subst.
      * intros t. rewrite bool_decide_eq_false_2; [done|]. intros [? _]; congruence.
    + intros [= <-]. eexists _, _. split_and!; try done; simpl.
      * rewrite bool_decide_eq_false_2; [lia|]. congruence.
      * intros t. rewrite bool_decide_eq_false_2; [done|]. intros [? _]; congruence.
Qed.

Lemma count_rows_cons (p : row → bool) (r : row) (rs : list row) :
  count p (r :: rs) = (if p r then 1 else 0) + count p rs.
Proof.
  unfold count. destruct (p r) eqn:Hp.
  - by rewrite filter_cons_True.
  - rewrite filter_cons_False; [done|]. by rewrite Hp.
Qed.

Lemma add_rows_counts (rows : list row) (md0 md : gmap string bucket) :
  add_rows md0 rows = inr md →
  ∀ month,
    let rs := records_of month rows in
    activities (bucket_at md month) = activities (bucket_at md0 month) ++ rs ∧
    visit_counts (bucket_at md month) =
      visit_counts (bucket_at md0 month) + count is_visit rs ∧
    ∀ t,
      default 0 (activity_counts (bucket_at md month) !! t) =
        default 0 (activity_counts (bucket_at md0 month) !! t) + count (is_activity t) rs ∧
      (activity_counts (bucket_at md month) !! t = None ↔
         activity_counts (bucket_at md0 month) !! t = None ∧ count (is_activity t) rs = 0).
Proof.
  revert md0; induction rows as [|r rows IH]; intros md0 Hrun month; simpl in *.
  - injection Hrun as <-. rewrite app_nil_r. split_and!; [done|by unfold count; simpl; lia|].
    intros t. unfold count; simpl. split; [lia|]. split; [done|by intros [? _]].
  - destruct (add_row md0 r) as [|md1] eqn:Hrow; simpl in Hrun; [done|].
    destruct (add_row_done _ _ _ Hrow) as (m & b & Hm & -> & Hact & Hvis & Hcnt).
    destruct (IH _ Hrun month) as (Ha & Hv & Hc).
    unfold records_of in *. unfold bucket_at in Ha, Hv, Hc.
    destruct (decide (m = month)) as [->|Hne].
    + rewrite lookup_insert_eq in Ha, Hv, Hc; simpl in *.
      rewrite filter_cons_True by done. fold (bucket_at md month) in *.
      fold (records_of month rows) in *. rewrite !count_rows_cons.
      split_and!.
      * by rewrite Ha, Hact, <- app_assoc.
      * rewrite Hv, Hvis. lia.
      * intros t. destruct (Hc t) as [Hd Hn]. rewrite Hd, Hn, (Hcnt t).
        rewrite count_rows_cons.
        destruct (is_activity t r); simpl; [|done].
        split; [lia|]. split; [by intros [? _]|by intros [_ ?]].
    + rewrite lookup_insert_ne in Ha, Hv, Hc by done.
      rewrite filter_cons_False by congruence. done.
Qed.

(** X7.  Whenever [parse_timeline_by_month] returns, the counters of
    every bucket agree with the rows of its month: the bucket lists the
    rows with that month in file order, [visit_counts] is the number of
    them whose record type is "visit", and [activity_counts] has an entry
    for a type exactly when the month has a row of record type
    "activity" with that type, the entry being their number (so it is
    never 0); rows of any other record type are listed but counted
    nowhere. *)
Theorem parse_timeline_by_month_counts (rows : list row) (monthly_data : gmap string bucket) :
  parse_timeline_by_month float_of_string rows = inr monthly_data →
  ∀ month,
    let b := bucket_at monthly_data month in
    activities b = records_of month rows ∧
    visit_counts b = count is_visit (activities b) ∧
    (∀ t, match activity_counts b !! t with
          | Some n => 0 < n ∧ n = count (is_activity t) (activities b)
          | None => count (is_activity t) (activities b) = 0
          end) ∧
    (monthly_data !! month = None → activities b = []).
Proof.
  intros Hrun month. destruct (add_rows_counts _ _ _ Hrun month) as (Ha & Hv & Hc).
  unfold bucket_at in Ha, Hv, Hc. rewrite lookup_empty in Ha, Hv, Hc. simpl in *.
  fold (bucket_at monthly_data month) in *.
  split_and!.
  - done.
  - by rewrite Ha.
  - intros t. destruct (Hc t) as [Hd Hn]. rewrite lookup_empty in Hd, Hn. rewrite Ha.
    destruct (activity_counts (bucket_at monthly_data month) !! t) as [n|] eqn:Hlk;
      simpl in *.
    + split; [|done]. destruct n; [|lia].
      destruct Hn as [_ Hn]. by discriminate Hn.
    + by apply Hn.
  - intros Hnone. unfold bucket_at. by rewrite Hnone.
Qed.

(** A turn of the loop raises exactly on an unreadable row, whatever
    has been collected. *)
Lemma add_row_error (md : gmap string bucket) (r : row) :
  match row_error r with
  | Some e => add_row md r = inl e
  | None => ∃ md', add_row md r = inr md'
  end.
Proof.
  unfold row_error, add_row, field.
  destruct (r !! "timestamp") as [[ts|]|]; simpl; try done.
  destruct (r !! "record_type") as [rt|]; simpl; [|done].
  pose proof (number_error_spec r "distance_meters") as Hd.
  destruct (number_error "distance_meters" r) as [e|]; [by rewrite Hd|].
  destruct Hd as [d ->]; simpl.
  pose proof (number_error_spec r "duration_seconds") as Hu.
  destruct (number_error "duration_seconds" r) as [e|]; [by rewrite Hu|].
  destruct Hu as [u ->]; simpl.
  case_bool_decide.
  - destruct (r !! "activity_type"); simpl; eauto.
  - case_bool_decide; eauto.
Qed.

Lemma add_rows_error (rows : list row) (md : gmap string bucket) :
  match list_find (λ r, is_Some (row_error r)) rows with
  | Some (i, bad) =>
      Forall (λ r, row_error r = None) (firstn i rows) ∧
      ∃ e, row_error bad = Some e ∧ add_rows md rows = inl e
  | None => ∃ md', add_rows md rows = inr md'
  end.
Proof.
  revert md; induction rows as [|r rows IH]; intros md; simpl; [eauto|].
  pose proof (add_row_error md r) as Hrow.
  case_decide as Herr.
  - destruct Herr as [e He]. rewrite He in Hrow. simpl. split; [done|].
    exists e. by rewrite Hrow.
  - destruct (row_error r) as [e|] eqn:He; [by destruct Herr; eauto|].
    destruct Hrow as [md' ->]; simpl.
    specialize (IH md').
    destruct (list_find _ rows) as [[i bad]|]; simpl; [|done].
    destruct IH as [Hgood Hbad]. split; [by constructor|done].
Qed.

(** X8.  [parse_timeline_by_month] returns a map exactly when every row
    is readable; otherwise it raises what the first unreadable row
    raises, whatever follows it: [KeyError] for a column the header
    lacks ([activity_type] is looked up only in rows of record type
    "activity"), [TypeError] for a line that ends before its timestamp,
    [ValueError] for a distance or duration that is not empty and not
    a number. *)
Theorem parse_timeline_by_month_raises (rows : list row) :
  match list_find (λ r, is_Some (row_error r)) rows with
  | Some (i, bad) =>
      Forall (λ r, row_error r = None) (firstn i rows) ∧
      ∃ e, row_error bad = Some e ∧ parse_timeline_by_month float_of_string rows = inl e
  | None => ∃ monthly_data, parse_timeline_by_month float_of_string rows = inr monthly_data
  end.
Proof. apply add_rows_error. Qed.

End TimelineCountFacts.

Lemma parse_timeline_by_month_counts_witness :
  ∃ monthly_data,
    MonthlyActivity.parse_timeline_by_month Samples.float_of_digits Samples.timeline
      = inr monthly_data ∧
    MonthlyActivity.visit_counts (TimelineSpec.bucket_at monthly_data "2025-06") = 1 ∧
    MonthlyActivity.activity_counts (TimelineSpec.bucket_at monthly_data "2025-06")
      !! Some "walking" = Some 1.
Proof.
  destruct (MonthlyActivity.parse_timeline_by_month Samples.float_of_digits Samples.timeline)
    as [e|md] eqn:Hrun; [vm_compute in Hrun; discriminate|].
  exists md. split; [done|].
  destruct (parse_timeline_by_month_counts _ _ _ Hrun "2025-06") as (Ha & Hv & Hc & _).
  specialize (Hc (Some "walking")). simpl in *.
  rewrite Hv, Ha. split; [vm_compute; reflexivity|].
  destruct (MonthlyActivity.activity_counts _ !! Some "walking") as [n|].
  - destruct Hc as [_ ->]. rewrite Ha. vm_compute. reflexivity.
  - rewrite Ha in Hc. vm_compute in Hc. discriminate.
Defined.

(** ** Folder differ: counts, names and mounts *)

Section MusicDiffCounts.
Import PyStr MusicDiff.

(** X15.  The numbers of the summary of [compare_folders] add up: the
    files of a folder are those only in it and those in both, and the
    three sets together have as many elements as the two key sets
    united. *)
Theorem compare_folders_counts (files1 files2 : gmap string string) :
  size files1 = size (only_in_1 files1 files2) + size (in_both files1 files2) ∧
  size files2 = size (only_in_2 files1 files2) + size (in_both files1 files2) ∧
  size (dom files1 ∪ dom files2) =
    size (only_in_1 files1 files2) + size (only_in_2 files1 files2)
    + size (in_both files1 files2).
Proof.
  unfold only_in_1, only_in_2, in_both.
  assert (H1 : dom files1 = (dom files1 ∖ dom files2) ∪ (dom files1 ∩ dom files2)).
  { apply set_eq; intros x.
    rewrite elem_of_union, elem_of_difference, elem_of_intersection.
    destruct (decide (x ∈ dom files2)); tauto. }
  assert (H2 : dom files2 = (dom files2 ∖ dom files1) ∪ (dom files1 ∩ dom files2)).
  { apply set_eq; intros x.
    rewrite elem_of_union, elem_of_difference, elem_of_intersection.
    destruct (decide (x ∈ dom files1)); tauto. }
  assert (D1 : (dom files1 ∖ dom files2) ## (dom files1 ∩ dom files2)).
  { intros x [_ Hx]%elem_of_difference [_ Hx']%elem_of_intersection. done. }
  assert (D2 : (dom files2 ∖ dom files1) ## (dom files1 ∩ dom files2)).
  { intros x [_ Hx]%elem_of_difference [Hx' _]%elem_of_intersection. done. }
  assert (S1 : size files1 =
    size (dom files1 ∖ dom files2) + size (dom files1 ∩ dom files2)).
  { rewrite <- (size_dom files1 (D := gset string)). rewrite H1 at 1. by apply size_union. }
  assert (S2 : size files2 =
    size (dom files2 ∖ dom files1) + size (dom files1 ∩ dom files2)).
  { rewrite <- (size_dom files2 (D := gset string)). rewrite H2 at 1. by apply size_union. }
  split_and!; [done..|].
  rewrite size_union_alt.
  rewrite (size_dom files1 (D := gset string)), S1. lia.
Qed.

Lemma length_append (s t : string) :
  String.length (s +:+ t) = String.length s + String.length t.
Proof. induction s as [|c s IH]; [done|]. rewrite append_cons. simpl. by rewrite IH. Qed.

(** [rfind] returns the last place where the character stands. *)
Lemma rfind_Some (c : ascii) (s : string) (i : nat) :
  rfind c s = Some i →
  ∃ stem ext, s = stem +:+ String c ext ∧ String.length stem = i ∧ rfind c ext = None.
Proof.
  revert i; induction s as [|d s IH]; intros i; [done|]. cbn [rfind].
  destruct (rfind c s) as [j|] eqn:Hr.
  - intros [= <-]. destruct (IH j eq_refl) as (stem & ext & -> & <- & Hext).
    by exists (String d stem), ext.
  - destruct (Ascii.eqb_spec d c) as [->|]; [|done]. intros [= <-].
    by exists EmptyString, s.
Qed.

(** A suffix is the name from its last dot on, and this dot is neither
    the first nor the last character of the name. *)
Lemma suffix_name (p : Path) :
  suffix p ≠ EmptyString →
  ∃ stem ext,
    name p = stem +:+ String "." ext ∧ stem ≠ EmptyString ∧ ext ≠ EmptyString ∧
    rfind "." ext = None ∧ suffix p = String "." ext.
Proof.
  unfold suffix. destruct (rfind "." (name p)) as [i|] eqn:Hr; [|done].
  destruct (rfind_Some _ _ _ Hr) as (stem & ext & Hname & <- & Hext).
  rewrite Hname, length_append. cbn [String.length].
  destruct (0 <? String.length stem) eqn:Hstem; [|done].
  destruct (String.length stem <? _) eqn:Hlen; [|done]. intros _.
  apply Nat.ltb_lt in Hstem, Hlen.
  exists stem, ext. split_and!; try done.
  - intros ->. simpl in Hstem. lia.
  - intros ->. simpl in Hlen. lia.
  - by rewrite drop_app_length.
Qed.

(** X16.  With a list of extensions that does not hold the empty
    string, every entry of [get_music_files] stands for a regular file
    whose name has a last dot that is neither its first nor its last
    character, and the part from this dot on, lower-cased, is one of
    the extensions: a file named [.mp3] or [song.] or [mp3] is never
    listed. *)
Theorem get_music_files_names (fs : FileSystem) (folder_path : string)
    (extensions : list string) (k v : string) :
  EmptyString ∉ extensions →
  get_music_files fs folder_path extensions !! k = Some v →
  ∃ folder rel stem ext,
    scanned_root fs folder_path = Some folder ∧
    (rel, true) ∈ rglob fs folder ∧
    k = str {| anchor := EmptyString; parts := rel |} ∧
    v = str (joinpath folder rel) ∧
    name (joinpath folder rel) = stem +:+ String "." ext ∧
    stem ≠ EmptyString ∧ ext ≠ EmptyString ∧ rfind "." ext = None ∧
    lower (String "." ext) ∈ extensions.
Proof.
  intros Hempty. unfold get_music_files.
  destruct (scanned_root fs folder_path) as [folder|]; [|by rewrite lookup_empty].
  intros [Hk|(rel & Hin & Hext & -> & ->)]%scan_sound; [by rewrite lookup_empty in Hk|].
  destruct (suffix_name (joinpath folder rel)) as (stem & ext & Hname & Hs & He & Hr & Hsuf).
  { intros Hnil. rewrite Hnil in Hext. done. }
  exists folder, rel, stem, ext. rewrite Hsuf in Hext. by split_and!.
Qed.

End MusicDiffCounts.

Lemma get_music_files_names_witness :
  ∃ folder rel stem ext,
    MusicDiff.scanned_root MusicSamples.disk "/music" = Some folder ∧
    (rel, true) ∈ MusicDiff.rglob MusicSamples.disk folder ∧
    "a/Song.MP3" = MusicDiff.str {| MusicDiff.anchor := EmptyString; MusicDiff.parts := rel |} ∧
    "/music/a/Song.MP3" = MusicDiff.str (MusicDiff.joinpath folder rel) ∧
    MusicDiff.name (MusicDiff.joinpath folder rel) = stem +:+ String "." ext ∧
    stem ≠ EmptyString ∧ ext ≠ EmptyString ∧ MusicDiff.rfind "." ext = None ∧
    PyStr.lower (String "." ext) ∈ MusicDiff.default_extensions.
Proof.
  apply (get_music_files_names MusicSamples.disk "/music" MusicDiff.default_extensions).
  - intros H. vm_compute in H. by repeat (apply elem_of_cons in H as [H|H]; [done|]);
      apply elem_of_nil in H.
  - vm_compute. reflexivity.
Defined.

Section GvfsFacts.
Import PyStr GitText MusicDiff Gvfs.




Lemma first_mtp_mount_plain (os : OS) (mtp_path other : string) (mounts : list string) :
  contains "/Internal" mtp_path || contains "/SD" mtp_path = false →
  contains "/Internal" other || contains "/SD" other = false →
  first_mtp_mount os mtp_path mounts = first_mtp_mount os other mounts.
Proof.
  intros H1 H2. induction mounts as [|mount mounts IH]; [done|]. cbn [first_mtp_mount].
  by rewrite H1, H2, IH.
Qed.

(** X18.  The folder an MTP address names is lost when the address has
    neither "/Internal" nor "/SD" in it: [get_music_files] then scans
    what [Path] makes of the first MTP mount, so two such addresses -
    of any devices and folders - give the same listing. *)
Theorem mtp_folder_not_scanned (os : OS) (path_of : string → Path)
    (folder_exists : Path → bool) (rglob : Path → list (list string * bool))
    (address1 address2 : string) (extensions : list string) :
  is_mtp_path address1 = true → is_mtp_path address2 = true →
  contains "/Internal" address1 || contains "/SD" address1 = false →
  contains "/Internal" address2 || contains "/SD" address2 = false →
  get_music_files (file_system os path_of folder_exists rglob) address1 extensions =
  get_music_files (file_system os path_of folder_exists rglob) address2 extensions.
Proof.
  intros Hmtp1 Hmtp2 H1 H2. unfold get_music_files, scanned_root.
  rewrite Hmtp1, Hmtp2. simpl. unfold Gvfs.convert_mtp_to_local.
  destruct (negb _); [done|]. destruct (listdir os _) as [mounts|]; [|done].
  by rewrite (first_mtp_mount_plain os address1 address2).
Qed.

End GvfsFacts.

Lemma mtp_folder_not_scanned_witness :
  Gvfs.convert_mtp_to_local MusicSamples.session "mtp://two/Music"
    = Some "/run/user/1000/gvfs/mtp:host=one" ∧
  ∀ path_of folder_exists rglob,
    MusicDiff.get_music_files
      (Gvfs.file_system MusicSamples.session path_of folder_exists rglob)
      "mtp://two/Music" MusicDiff.default_extensions =
    MusicDiff.get_music_files
      (Gvfs.file_system MusicSamples.session path_of folder_exists rglob)
      "mtp://one/Podcasts" MusicDiff.default_extensions.
Proof.
  split; [vm_compute; reflexivity|]. intros path_of folder_exists rglob.
  apply (mtp_folder_not_scanned MusicSamples.session path_of folder_exists rglob
           "mtp://two/Music" "mtp://one/Podcasts"); vm_compute; reflexivity.
Defined.
